(** * ColpaBot: the synonym group consolidation of [synonymsWithDatamuse.py]

    A shallow embedding of [group_synonyms] and of its nested helper
    [substitute_synonyms], with the properties that the specification of the
    consolidation engine states about them.

    Conventions.
    - A Python [str] is a [string]: the bytes of its UTF-8 encoding.  The
      separators (comma, tab), the line feed and the extensions are ASCII, so
      splitting, joining and suffix tests commute with the encoding.
    - [synonymsByLine], a list of lists mutated by index, is a
      [list (list word)] read with [!!] and written with [<[i:=x]>];
      [processedSynonyms] is a [gset word].
    - [list(set(line))] returns the distinct words of [line] in an order the
      language leaves open (it follows the string hashes of the running
      interpreter): the order is a parameter of a run, a [SetOrder].
    - [raise] is the [Err] branch of [result]; loops receive fuel and answer
      [Err OutOfFuel] when it runs out, which the termination theorems
      exclude. *)

From Stdlib Require Import Ascii.
From Stdlib Require String.
From stdpp Require Import base gmap sets list strings relations.

#[local] Set Warnings "-clear-no-such-hyp".

Abbreviation word := string (only parsing).

(** ** Errors *)

(** The source raises a plain [Exception] at lines 39 and 51; they are told
    apart here under the names the specification gives them.
    [FileNotFoundError] is what [open] raises at line 31 for a name that is
    no file of the directory.  [OutOfFuel] belongs to the embedding alone. *)
Inductive error : Type :=
  | FileNotFoundError (filename : string)
  | UnsupportedFormatError (filename : string)
  | InternalConsistencyError (synonym : word)
  | OutOfFuel.

Inductive result (A : Type) : Type :=
  | Ok (a : A)
  | Err (e : error).
Arguments Ok {A} a.
Arguments Err {A} e.

Instance result_bind : MBind result := λ A B k r,
  match r with
  | Ok a => k a
  | Err e => Err e
  end.

(** ** The order of [list(set(line))] *)

Record SetOrder : Type := MkSetOrder {
  set_list : list word → list word;
  set_list_perm : ∀ line, set_list line ≡ₚ remove_dups line
}.

(** Two orders an interpreter may exhibit: the distinct words as
    [remove_dups] leaves them, and the same words backwards. *)
Definition order_kept : SetOrder :=
  {| set_list := remove_dups; set_list_perm := λ line, reflexivity _ |}.

Definition order_reversed : SetOrder :=
  {| set_list := λ line, reverse (remove_dups line);
     set_list_perm := λ line, reverse_Permutation (remove_dups line) |}.

(** ** The merge loop (lines 42 to 73) *)

(** The variables of the [while] loop and the position of the iterator of
    [for i, line in enumerate(synonymsByLine)].  The list iterator of Python
    keeps an index into the live list, and [enumerate] counts in step with
    it: [idx] is both. *)
Record state : Type := State {
  lines : list (list word);
  processed : gset word;
  changes : bool;
  idx : nat
}.

(** [for synonym in line]: the first word found in [processedSynonyms]
    stops the loop and triggers the merge; the words before it have been
    added. *)
Fixpoint scan_line (line : list word) (processedSynonyms : gset word)
  : option word * gset word :=
  match line with
  | [] => (None, processedSynonyms)
  | synonym :: rest =>
      if decide (synonym ∈ processedSynonyms)
      then (Some synonym, processedSynonyms)
      else scan_line rest ({[synonym]} ∪ processedSynonyms)
  end.

(** Lines 45 to 51.  The search runs over every line, the current one
    included.  When the found index is [index_of_synonyms_to_group] itself,
    the second assignment overwrites the first, as in the source. *)
Definition substitute_synonyms (synonymsByLine : list (list word))
    (synonym_to_be_substituted : word) (synonyms_to_group : list word)
    (index_of_synonyms_to_group : nat) : result (list (list word)) :=
  match list_find (λ line, synonym_to_be_substituted ∈ line) synonymsByLine with
  | Some (i, line) =>
      Ok (<[index_of_synonyms_to_group := []]>
            (<[i := line ++ synonyms_to_group]> synonymsByLine))
  | None => Err (InternalConsistencyError synonym_to_be_substituted)
  end.

(** The body of the [for] loop, lines 58 to 73, at the line the iterator
    has just yielded. *)
Definition visit (o : SetOrder) (st : state) (line : list word) : result state :=
  let i := idx st in
  if decide (length line < 2) then
    Ok {| lines := delete i (lines st); processed := processed st;
          changes := true; idx := S i |}
  else
    let line' := set_list o line in
    let changes' :=
      if decide (length line' ≠ length line) then true else changes st in
    let synonymsByLine := <[i := line']> (lines st) in
    match scan_line line' (processed st) with
    | (Some synonym, processedSynonyms) =>
        merged ← substitute_synonyms synonymsByLine synonym line' i;
        Ok {| lines := merged;
              processed := processedSynonyms ∪ list_to_set line';
              changes := true; idx := S i |}
    | (None, processedSynonyms) =>
        Ok {| lines := synonymsByLine; processed := processedSynonyms;
              changes := changes'; idx := S i |}
    end.

(** The [for] loop from the current position: the iterator stops when its
    index reaches the current length of the list. *)
Fixpoint pass_loop (o : SetOrder) (fuel : nat) (st : state) : result state :=
  match lines st !! idx st with
  | None => Ok st
  | Some line =>
      match fuel with
      | 0 => Err OutOfFuel
      | S fuel' => st' ← visit o st line; pass_loop o fuel' st'
      end
  end.

(** Lines 55 to 57: one iteration of the [while] loop. *)
Definition pass_start (synonymsByLine : list (list word)) : state :=
  {| lines := synonymsByLine; processed := ∅; changes := false; idx := 0 |}.

Definition pass (o : SetOrder) (synonymsByLine : list (list word)) : result state :=
  pass_loop o (length synonymsByLine) (pass_start synonymsByLine).

(** [while changes]. *)
Fixpoint merge_loop (o : SetOrder) (fuel : nat) (synonymsByLine : list (list word))
  : result (list (list word)) :=
  match fuel with
  | 0 => Err OutOfFuel
  | S fuel' =>
      st ← pass o synonymsByLine;
      if changes st then merge_loop o fuel' (lines st) else Ok (lines st)
  end.

(** The weight that every changing pass lowers: the words, the lines and the
    non empty lines, counted together.  A pop removes a line, a removed
    duplicate removes a word, a merge empties a line. *)
Definition weight (line : list word) : nat :=
  length line + match line with [] => 1 | _ => 2 end.

Definition measure (synonymsByLine : list (list word)) : nat :=
  sum_list (weight <$> synonymsByLine).

(** Lines 42 to 73: the loop with fuel for one pass more than the weight of
    its input, which the proof of termination shows to be enough. *)
Definition consolidate (o : SetOrder) (synonymsByLine : list (list word))
  : result (list (list word)) :=
  merge_loop o (S (measure synonymsByLine)) synonymsByLine.

(** ** Relations used by the properties *)

(** The three ways through the body of the [for] loop: the line is popped,
    it is kept (with its duplicates removed), or it is merged into the line
    that [substitute_synonyms] finds. *)
Inductive visited (o : SetOrder) (st : state) (line : list word) : state → Prop :=
  | visited_pop :
      length line < 2 →
      visited o st line
        {| lines := delete (idx st) (lines st); processed := processed st;
           changes := true; idx := S (idx st) |}
  | visited_keep P :
      2 ≤ length line →
      scan_line (set_list o line) (processed st) = (None, P) →
      visited o st line
        {| lines := <[idx st := set_list o line]> (lines st); processed := P;
           changes := if decide (length (set_list o line) ≠ length line)
                      then true else changes st;
           idx := S (idx st) |}
  | visited_merge synonym P t target :
      2 ≤ length line →
      scan_line (set_list o line) (processed st) = (Some synonym, P) →
      list_find (λ l, synonym ∈ l) (<[idx st := set_list o line]> (lines st))
        = Some (t, target) →
      visited o st line
        {| lines := <[idx st := []]>
                      (<[t := target ++ set_list o line]>
                         (<[idx st := set_list o line]> (lines st)));
           processed := P ∪ list_to_set (set_list o line);
           changes := true; idx := S (idx st) |}.

(** Every word of [processedSynonyms] is held by a line before the
    iterator. *)
Definition located (st : state) : Prop :=
  ∀ w, w ∈ processed st →
       ∃ j l, j < idx st ∧ lines st !! j = Some l ∧ w ∈ l.

(** Two words are linked when some line holds both, and connected when a
    chain of lines leads from one to the other, each line sharing a word
    with the next: the transitive closure of [linked]. *)
Definition linked (synonymsByLine : list (list word)) (a b : word) : Prop :=
  ∃ line, line ∈ synonymsByLine ∧ a ∈ line ∧ b ∈ line.

Definition connected (synonymsByLine : list (list word)) : relation word :=
  tc (linked synonymsByLine).

(** The chains of the specification, spelled out: lines of the list, each
    sharing a word with the next, the first holding [a] and the last [b]. *)
Fixpoint chained (chain : list (list word)) : Prop :=
  match chain with
  | l1 :: (l2 :: _) as rest => (∃ w, w ∈ l1 ∧ w ∈ l2) ∧ chained rest
  | _ => True
  end.

Definition chain_between (synonymsByLine : list (list word)) (a b : word)
    (chain : list (list word)) : Prop :=
  (∀ line, line ∈ chain → line ∈ synonymsByLine) ∧
  chained chain ∧
  (∃ first, head chain = Some first ∧ a ∈ first) ∧
  (∃ final, last chain = Some final ∧ b ∈ final).

Definition same_links (L L' : list (list word)) : Prop :=
  ∀ a b, rtc (linked L) a b ↔ rtc (linked L') a b.

(** The lines from the iterator on need no change: each has two words or
    more, none twice, none seen before. *)
Fixpoint settled_from (P : gset word) (rest : list (list word)) : Prop :=
  match rest with
  | [] => True
  | line :: rest' =>
      2 ≤ length line ∧ NoDup line ∧ (∀ w, w ∈ line → w ∉ P) ∧
      settled_from (list_to_set line ∪ P) rest'
  end.

(** The invariant after consolidation: every line has two distinct words
    or more and no duplicate, and lines at different positions share no
    word. *)
Definition converged (synonymsByLine : list (list word)) : Prop :=
  (∀ line, line ∈ synonymsByLine → 2 ≤ length line ∧ NoDup line) ∧
  (∀ i j l1 l2, i ≠ j → synonymsByLine !! i = Some l1 →
     synonymsByLine !! j = Some l2 → ∀ w, w ∈ l1 → w ∉ l2).

(** One iteration of the [for] loop as a transition, and the states a run
    on [input] goes through: the start of the first pass, every state after
    an iteration, and the start of a further pass when the [while] condition
    holds at the end of one. *)
Definition step (o : SetOrder) (st st' : state) : Prop :=
  ∃ line, lines st !! idx st = Some line ∧ visit o st line = Ok st'.

Inductive reachable (o : SetOrder) (input : list (list word)) : state → Prop :=
  | reachable_start : reachable o input (pass_start input)
  | reachable_step st st' :
      reachable o input st → step o st st' → reachable o input st'
  | reachable_again st :
      reachable o input st → lines st !! idx st = None → changes st = true →
      reachable o input (pass_start (lines st)).

(** The same invariant without positions: a list of cells. *)
Definition cells (L : list (list word)) : Prop :=
  (∀ line, line ∈ L → 2 ≤ length line ∧ NoDup line) ∧
  NoDup L ∧
  (∀ l1 l2 w, l1 ∈ L → l2 ∈ L → w ∈ l1 → w ∈ l2 → l1 = l2).

(** Two outputs hold the same partition: the lines of one are the lines of
    the other, taken in some order, each with its words in some order. *)
Definition same_partition (out1 out2 : list (list word)) : Prop :=
  ∃ out2', out2' ≡ₚ out2 ∧ Forall2 (≡ₚ) out1 out2'.

(** ** The whole of [group_synonyms] (lines 29 to 78) *)

(** [str.strip] and [str.lower] follow the Unicode tables of the
    interpreter, which are no part of the repository: they are parameters.
    [ascii_ops] is what they do on ASCII text. *)
Record StrOps : Type := MkStrOps {
  str_strip : string → string;
  str_lower : string → string
}.

Definition ascii_isspace (c : ascii) : bool :=
  let n := nat_of_ascii c in
  bool_decide (9 ≤ n ≤ 13) || bool_decide (28 ≤ n ≤ 32).

Fixpoint ascii_lstrip (s : string) : string :=
  match s with
  | EmptyString => EmptyString
  | String c rest => if ascii_isspace c then ascii_lstrip rest else s
  end.

Definition ascii_strip (s : string) : string :=
  String.rev (ascii_lstrip (String.rev (ascii_lstrip s))).

Definition ascii_lower_char (c : ascii) : ascii :=
  let n := nat_of_ascii c in
  if bool_decide (65 ≤ n ≤ 90) then ascii_of_nat (n + 32) else c.

Fixpoint ascii_lower (s : string) : string :=
  match s with
  | EmptyString => EmptyString
  | String c rest => String (ascii_lower_char c) (ascii_lower rest)
  end.

Definition ascii_ops : StrOps :=
  {| str_strip := ascii_strip; str_lower := ascii_lower |}.

(** [s.endswith(suffix)] *)
Definition endswith (s suffix : string) : bool :=
  let n := String.length s in
  let m := String.length suffix in
  bool_decide (m ≤ n) && String.eqb (String.substring (n - m) m s) suffix.

(** [s.startswith(prefix)], for the comment prefix of the repository *)
Definition startswith (s prefix : string) : bool := String.prefix prefix s.

Definition COMMENT_CHARS : string := "//".

(** [s.split(separator)] for a separator of one character: never empty,
    the empty string gives one empty token. *)
Fixpoint split (separator : ascii) (s : string) : list string :=
  match s with
  | EmptyString => [EmptyString]
  | String c rest =>
      if bool_decide (c = separator) then EmptyString :: split separator rest
      else match split separator rest with
           | token :: tokens => String c token :: tokens
           | [] => [String c EmptyString]
           end
  end.

(** [separator.join(line)] *)
Fixpoint join (separator : ascii) (line : list string) : string :=
  match line with
  | [] => EmptyString
  | [token] => token
  | token :: rest => token +:+ String separator (join separator rest)
  end.

Definition LF : string := String "010"%char EmptyString.

(** Lines 34 to 39: the separator, or none for a name that is refused. *)
Definition separator_of (filename : string) : option ascii :=
  if endswith filename ".csv" then Some ","%char
  else if endswith filename ".tsv" then Some "009"%char
  else None.

(** Line 41. *)
Definition parse_line (ops : StrOps) (separator : ascii) (line : string)
  : list word :=
  split separator (str_lower ops (str_strip ops line)).

(** Lines 76 to 78. *)
Definition render (separator : ascii) (synonymsByLine : list (list word))
  : list string :=
  (λ line, join separator line +:+ LF) <$> synonymsByLine.

(** The files of [SYNONYMS_DIR], keyed by name; a file is the list of its
    lines, as [readlines] returns them and as the [write] calls leave them.
    The file is opened and read before the extension is looked at, and
    written once, after the loop. *)
Definition group_synonyms (ops : StrOps) (o : SetOrder)
    (fs : gmap string (list string)) (filename : string)
  : result unit * gmap string (list string) :=
  match fs !! filename with
  | None => (Err (FileNotFoundError filename), fs)
  | Some file_lines =>
      match separator_of filename with
      | None => (Err (UnsupportedFormatError filename), fs)
      | Some separator =>
          let synonymsByLine := parse_line ops separator <$> file_lines in
          match consolidate o synonymsByLine with
          | Err e => (Err e, fs)
          | Ok out => (Ok (), <[filename := render separator out]> fs)
          end
      end
  end.

(** A token holds no separator. *)
Fixpoint free_of (separator : ascii) (token : string) : Prop :=
  match token with
  | EmptyString => True
  | String c rest => c ≠ separator ∧ free_of separator rest
  end.

(** ** The loop over the directory (lines 118 to 125) *)

(** Line 6. *)
Definition GROUP_SYNONYMS : bool := false.







(** ** [DatamuseService.get_synonyms] (lines 19 to 26) *)

(** What the script can raise outside [group_synonyms]: the error of
    [open] at line 93, the exceptions of the three request lines (20 to 22),
    the [KeyError] of [item['word']] and the [TypeError] of a score that
    does not compare with a number or of a synonym that is no [str]. *)
Inductive fetch_error : Type :=
  | NoSuchFile
  | RequestError (reason : string)
  | KeyError (key : string)
  | TypeError.

(** [filtered_synonyms[:max_results]] for any integer, negative ones
    counting from the end. *)
Definition slice_to {A : Type} (l : list A) (stop : Z) : list A :=
  if decide (0 ≤ stop)%Z then take (Z.to_nat stop) l
  else take (length l - Z.to_nat (- stop)) l.

Section Datamuse.

(** The values of the decoded response and the comparison
    [item['score'] > min_score], which answers [None] where Python raises
    [TypeError].  The body is a list of objects, as the service documents
    it; [api] stands for lines 20 to 22, from the word asked for (a [str]
    in whichever form the caller holds it) to the decoded body. *)
Context {json query : Type} (greater : json → Z → option bool).
Context (api : query → fetch_error + list (gmap string json)).

(** One item of the comprehension of line 24: the condition, then the
    word. *)
Definition select_word (min_score : Z) (item : gmap string json)
  : fetch_error + option json :=
  match item !! "score" with
  | None => inr None
  | Some score =>
      match greater score min_score with
      | None => inl TypeError
      | Some false => inr None
      | Some true =>
          match item !! "word" with
          | Some w => inr (Some w)
          | None => inl (KeyError "word")
          end
      end
  end.

(** Line 24. *)
Fixpoint filter_synonyms (min_score : Z) (data : list (gmap string json))
  : fetch_error + list json :=
  match data with
  | [] => inr []
  | item :: rest =>
      match select_word min_score item with
      | inl e => inl e
      | inr None => filter_synonyms min_score rest
      | inr (Some w) =>
          match filter_synonyms min_score rest with
          | inl e => inl e
          | inr ws => inr (w :: ws)
          end
      end
  end.

Definition get_synonyms (word : query) (min_score max_results : Z)
  : fetch_error + list json :=
  match api word with
  | inl e => inl e
  | inr data =>
      match filter_synonyms min_score data with
      | inl e => inl e
      | inr filtered_synonyms => inr (slice_to filtered_synonyms max_results)
      end
  end.

(** An item that passes the condition of line 24, and an item at which
    line 24 raises nothing. *)
Definition qualifies (min_score : Z) (item : gmap string json) : Prop :=
  item !! "score" ≫= (λ score, greater score min_score) = Some true.

#[export] Instance qualifies_dec (min_score : Z) (item : gmap string json) :
  Decision (qualifies min_score item).
Proof. unfold qualifies. apply _. Defined.

Definition well_formed (min_score : Z) (item : gmap string json) : Prop :=
  ∀ score, item !! "score" = Some score →
    ∃ b, greater score min_score = Some b ∧
         (b = true → is_Some (item !! "word")).

End Datamuse.

(** A response as the service sends it: numbers, strings and the rest. *)
Inductive datamuse_json : Type :=
  | JInt (n : Z)
  | JStr (s : string)
  | JOther.

Definition datamuse_greater (v : datamuse_json) (min_score : Z) : option bool :=
  match v with
  | JInt n => Some (bool_decide (min_score < n)%Z)
  | _ => None
  end.

(** ** [normalize] (lines 81 to 87) *)

(** The patterns of [normalize] name characters beyond ASCII, and [\s] and
    [strip] follow the white space of Unicode: in this part a [str] is the
    list of its code points.  [str.lower] stays a parameter. *)
Abbreviation text := (list N) (only parsing).

(** Line 82, the class between the brackets. *)
Definition PUNCTUATION_TO_REPLACE_WITH_SPACE : list N :=
  [46; 44; 59; 161; 33; 191; 63; 34; 45; 43; 42; 124; 64; 35; 36; 126; 37; 38;
   61; 92; 47; 60; 62; 40; 41; 123; 125; 91; 93]%N.

(** Line 83: the apostrophes, the accents, the caret and the middle dot. *)
Definition PUNCTUATION_TO_REMOVE : list N :=
  [39; 8217; 96; 180; 168; 94; 183]%N.

(** The code points that [\s] matches in a [str] pattern and that [strip]
    removes. *)
Definition WHITESPACE : list N :=
  [9; 10; 11; 12; 13; 28; 29; 30; 31; 32; 133; 160; 5760; 8192; 8193; 8194;
   8195; 8196; 8197; 8198; 8199; 8200; 8201; 8202; 8232; 8233; 8239; 8287;
   12288]%N.

Definition SPACE : N := 32%N.

Definition isspace (c : N) : bool := bool_decide (c ∈ WHITESPACE).

(** Line 84: [re.sub(PUNCTUATION_TO_REMOVE, "", text)]. *)
Definition sub_remove (t : text) : text :=
  filter (λ c, c ∉ PUNCTUATION_TO_REMOVE) t.

(** Line 85: [re.sub(PUNCTUATION_TO_REPLACE_WITH_SPACE, " ", text)]. *)
Definition sub_replace (t : text) : text :=
  (λ c, if decide (c ∈ PUNCTUATION_TO_REPLACE_WITH_SPACE) then SPACE else c)
    <$> t.

(** Line 86: [re.sub(r"\s+", " ", text)], one space for every maximal run
    of white space; [in_run] tells that the run has begun. *)
Fixpoint sub_spaces_go (in_run : bool) (t : text) : text :=
  match t with
  | [] => []
  | c :: rest =>
      if isspace c
      then (if in_run then sub_spaces_go true rest
            else SPACE :: sub_spaces_go true rest)
      else c :: sub_spaces_go false rest
  end.

Definition sub_spaces (t : text) : text := sub_spaces_go false t.

(** [text.strip()] *)
Fixpoint text_lstrip (t : text) : text :=
  match t with
  | [] => []
  | c :: rest => if isspace c then text_lstrip rest else t
  end.

Fixpoint text_rstrip (t : text) : text :=
  match t with
  | [] => []
  | c :: rest =>
      match text_rstrip rest with
      | [] => if isspace c then [] else [c]
      | kept => c :: kept
      end
  end.

Definition text_strip (t : text) : text := text_rstrip (text_lstrip t).

Definition normalize (lower : text → text) (t : text) : text :=
  lower (text_strip (sub_spaces (sub_replace (sub_remove t)))).

(** [str.lower] on the letters of ASCII. *)
Definition lower_code (c : N) : N :=
  if decide (65 ≤ c ≤ 90)%N then (c + 32)%N else c.

(** A text that the steps before [lower] leave as it is: none of the
    characters of the two classes, no white space but single spaces, and
    those between other characters. *)
Fixpoint single_spaced (t : text) : Prop :=
  match t with
  | c1 :: (c2 :: _) as rest => ¬ (c1 = SPACE ∧ c2 = SPACE) ∧ single_spaced rest
  | _ => True
  end.

Definition plain (c : N) : Prop :=
  (c ∉ PUNCTUATION_TO_REMOVE) ∧ (c ∉ PUNCTUATION_TO_REPLACE_WITH_SPACE) ∧
  (isspace c = true → c = SPACE).

Definition tidy (t : text) : Prop :=
  Forall plain t ∧ single_spaced t ∧
  head t ≠ Some SPACE ∧ last t ≠ Some SPACE.

(** ** The vocabulary and the file of synonyms (lines 89 to 116) *)

Definition TAB : N := 9%N.
Definition LINE_FEED : N := 10%N.

(** [COMMENT_CHARS], as code points. *)
Definition COMMENT_CODES : list N := [47; 47]%N.

(** [line.split('\t')] and ["\t".join(...)] on code points. *)
Fixpoint split_on (separator : N) (t : text) : list text :=
  match t with
  | [] => [[]]
  | c :: rest =>
      if decide (c = separator) then [] :: split_on separator rest
      else match split_on separator rest with
           | field :: fields => (c :: field) :: fields
           | [] => [[c]]
           end
  end.

Fixpoint join_with (separator : N) (fields : list text) : text :=
  match fields with
  | [] => []
  | [field] => field
  | field :: rest => field ++ separator :: join_with separator rest
  end.

(** [text.split()]: the maximal runs without white space.  The pair holds
    the run that the text begins with and the runs after it. *)
Fixpoint split_whitespace_go (t : text) : text * list text :=
  match t with
  | [] => ([], [])
  | c :: rest =>
      let '(run, runs) := split_whitespace_go rest in
      if isspace c
      then ([], match run with [] => runs | _ => run :: runs end)
      else (c :: run, runs)
  end.

Definition split_whitespace (t : text) : list text :=
  let '(run, runs) := split_whitespace_go t in
  match run with [] => runs | _ => run :: runs end.

(** [line.removesuffix("\n")] *)
Definition removesuffix_lf (line : text) : text :=
  if decide (last line = Some LINE_FEED)
  then take (length line - 1) line else line.

(** The condition and the expression of the comprehension of line 97. *)
Definition question_of (line : text) : option text :=
  if bool_decide (COMMENT_CODES `prefix_of` line) then None
  else if forallb (λ c, bool_decide (c ∈ [10; 32; 13]%N)) line then None
  else match split_on TAB line with
       | _ :: question :: _ => Some question
       | _ => None
       end.

(** Lines 95 to 105: the words to look up. *)
Definition vocabulary (lower : text → text) (content : list text)
  : gset (list N) :=
  let ignoreSymbols := removesuffix_lf <$> take 2 content in
  let questions := omap question_of content in
  let words : gset (list N) :=
    list_to_set (normalize lower
                   <$> split_whitespace (join_with SPACE questions)) in
  let words := filter (λ word, text_strip word ≠ []) words in
  words ∖ list_to_set ignoreSymbols.

(** The order in which [for word in words] meets the words of the set. *)
Record WordOrder : Type := MkWordOrder {
  iter_set : gset (list N) → list (list N);
  iter_set_perm : ∀ words, iter_set words ≡ₚ elements words
}.

Section SynonymsBlock.

Context {json : Type} (greater : json → Z → option bool).
Context (api : list N → fetch_error + list (gmap string json)).

(** The text of a value that is a [str]; ["\t".join] raises [TypeError] on
    any other. *)
Context (as_text : json → option (list N)).

(** The lookup of a word succeeds and its synonyms are all texts. *)
Definition looked_up (word : list N) (texts : list (list N)) : Prop :=
  ∃ synonyms, get_synonyms greater api word 500 10 = inr synonyms ∧
              mapM as_text synonyms = Some texts.

(** Lines 109 to 111. *)
Fixpoint fetch_records (words : list (list N)) : fetch_error + list N :=
  match words with
  | [] => inr []
  | word :: rest =>
      match get_synonyms greater api word 500 10 with
      | inl e => inl e
      | inr synonyms =>
          match mapM as_text synonyms with
          | None => inl TypeError
          | Some texts =>
              match fetch_records rest with
              | inl e => inl e
              | inr contentToWrite =>
                  inr (word ++ TAB :: join_with TAB texts
                         ++ LINE_FEED :: contentToWrite)
              end
          end
      end
  end.

(** Lines 93 to 115: from the lines of the file of questions, if there is
    one, to the text written to the file of synonyms. *)
Definition synonyms_block (lower : text → text) (order : WordOrder)
    (questions_file : option (list (list N))) : fetch_error + list N :=
  match questions_file with
  | None => inl NoSuchFile
  | Some content => fetch_records (iter_set order (vocabulary lower content))
  end.

End SynonymsBlock.

(** ** [translate.py] *)

(** What [translator.translate_text] answers: one result, or a list of
    results; [isinstance(translation, list)] tells them apart. *)
Inductive translation : Type :=
  | TextResult (text : string)
  | TextResults (texts : list string).

(** What the [except Exception] clauses wrap into "Unexpected error": the
    exception of line 81 or 127, the [StopIteration] of [next] on a file
    that has ended, the exception of line 162, the [IndexError] of
    [fields[1]], the [AttributeError] of [.text] on a list, an exception of
    the translator. *)
Inductive unexpected : Type :=
  | InvalidColumns (fields : list string)
  | StopIteration
  | LanguagesDoNotMatch
  | IndexError
  | AttributeError
  | TranslatorError (reason : string).

Inductive translate_error : Type :=
  | SameLanguage
  | LanguageNotListed
  | UnexpectedError (cause : unexpected).

(** What the functions print. *)
Inductive printed : Type :=
  | Translating (source_file source_lang target_lang target_file : string)
  | PrintedFields (fields : list string)
  | FileNotFoundMessage (path : string)
  | Finished.

Definition SEPARATOR : ascii := "009"%char.
Definition QNA_FILE_EXT : string := ".tsv".
Definition COMMENT_PREFIX : string := "//".
Definition BOT_MESSAGES_CHANGED : bool := false.

(** Lines 51 and 52. *)
Definition get_general_lang (lang : string) : string :=
  default EmptyString (head (split "-"%char lang)).

(** [s.lstrip(c)] and [s.strip(c)] for one character. *)
Fixpoint lstrip_char (c : ascii) (s : string) : string :=
  match s with
  | EmptyString => EmptyString
  | String c' rest => if decide (c' = c) then lstrip_char c rest else s
  end.

Definition strip_char (c : ascii) (s : string) : string :=
  String.rev (lstrip_char c (String.rev (lstrip_char c s))).

Definition texts_of (t : translation) : list string :=
  match t with
  | TextResult text => [text]
  | TextResults texts => texts
  end.

(** [str.isdigit] on ASCII text. *)
Fixpoint ascii_all_digits (s : string) : bool :=
  match s with
  | EmptyString => true
  | String c rest =>
      bool_decide (48 ≤ nat_of_ascii c ≤ 57) && ascii_all_digits rest
  end.

Definition ascii_isdigit (s : string) : bool :=
  match s with
  | EmptyString => false
  | _ => ascii_all_digits s
  end.

Section Translate.

(** [str.strip] and [str.isdigit] follow the Unicode tables; the languages
    read at lines 22 to 26, the translator and the three path prefixes of
    lines 8 to 10 are fixed when the functions run. *)
Context (ops : StrOps) (isdigit : string → bool).
Context (languages_input : list string).
Context (translate_text : string → string → string → string + translation).
Context (SYNONYMS_FILE_NAME QNA_FILE_NAME ADDITIONAL_TEXT_FILE_NAME : string).

(** [len(line.strip().strip("\n")) == 0] *)
Definition is_empty_line (line : string) : bool :=
  bool_decide (String.length (strip_char "010"%char (str_strip ops line)) = 0).

(** Lines 130 to 135: every field goes to the translator. *)
Fixpoint translate_fields (source_general_lang target_lang : string)
    (fields : list string) : unexpected + list string :=
  match fields with
  | [] => inr []
  | text :: rest =>
      match translate_text text source_general_lang target_lang with
      | inl reason => inl (TranslatorError reason)
      | inr translation =>
          match translate_fields source_general_lang target_lang rest with
          | inl e => inl e
          | inr result => inr (texts_of translation ++ result)
          end
      end
  end.

(** Lines 118 to 137; [written] holds what [writer.write] has received. *)
Fixpoint translate_synonyms_lines (source_general_lang target_lang : string)
    (reader : list string) (written : list string)
  : (unexpected + unit) * list string * list printed :=
  match reader with
  | [] => (inr (), written, [])
  | line :: rest =>
      let fields := split SEPARATOR line in
      if is_empty_line line || startswith line COMMENT_PREFIX then
        translate_synonyms_lines source_general_lang target_lang rest
          (written ++ [line])
      else if bool_decide (length fields < 2) then
        (inl (InvalidColumns fields), written, [PrintedFields fields])
      else
        match translate_fields source_general_lang target_lang fields with
        | inl e => (inl e, written, [])
        | inr result =>
            translate_synonyms_lines source_general_lang target_lang rest
              (written ++ [join SEPARATOR result])
        end
  end.

(** Lines 103 to 143.  A file is the list of its lines for the reader and
    the list of the texts written for the writer. *)
Definition translate_synonyms (source_lang target_lang : string)
    (fs : gmap string (list string))
  : (translate_error + unit) * gmap string (list string) * list printed :=
  if decide (source_lang = target_lang) then (inl SameLanguage, fs, [])
  else if decide (target_lang ∉ languages_input)
  then (inl LanguageNotListed, fs, [])
  else if decide (source_lang ∉ languages_input)
  then (inl LanguageNotListed, fs, [])
  else
    let source_general_lang := get_general_lang source_lang in
    let source_file :=
      SYNONYMS_FILE_NAME +:+ "_" +:+ source_lang +:+ QNA_FILE_EXT in
    let target_file :=
      SYNONYMS_FILE_NAME +:+ "_" +:+ target_lang +:+ QNA_FILE_EXT in
    match fs !! source_file with
    | None => (inr (), fs, [FileNotFoundMessage source_file])
    | Some reader =>
        let '(outcome, written, out) :=
          translate_synonyms_lines source_general_lang target_lang reader [] in
        let head :=
          Translating source_file source_lang target_lang target_file in
        match outcome with
        | inl cause =>
            (inl (UnexpectedError cause), <[target_file := written]> fs,
             head :: out)
        | inr _ =>
            (inr (), <[target_file := written]> fs, head :: out ++ [Finished])
        end
    end.

(** Lines 83 to 92: the first column is kept, and so is a field that is
    the line of the symbol of no translation. *)
Fixpoint translate_answers (no_translation_string : string)
    (source_general_lang target_lang : string) (texts : list string)
  : unexpected + list string :=
  match texts with
  | [] => inr []
  | text :: rest =>
      if decide (text = no_translation_string) then
        match translate_answers no_translation_string
                source_general_lang target_lang rest with
        | inl e => inl e
        | inr result => inr (text :: result)
        end
      else
        match translate_text text source_general_lang target_lang with
        | inl reason => inl (TranslatorError reason)
        | inr translation =>
            match translate_answers no_translation_string
                    source_general_lang target_lang rest with
            | inl e => inl e
            | inr result => inr (texts_of translation ++ result)
            end
        end
  end.

(** The first disjunct but one of line 75:
    [fields[0].strip().strip("\n").lstrip("-").isdigit()]. *)
Definition is_number (field : string) : bool :=
  isdigit (lstrip_char "-"%char
             (strip_char "010"%char (str_strip ops field))).

(** Lines 72 to 94. *)
Fixpoint translate_qna_lines (no_translation_string : string)
    (source_general_lang target_lang : string)
    (reader : list string) (written : list string)
  : (unexpected + unit) * list string * list printed :=
  match reader with
  | [] => (inr (), written, [])
  | line :: rest =>
      let fields := split SEPARATOR line in
      if is_empty_line line
         || is_number (default EmptyString (head fields))
         || startswith line COMMENT_PREFIX then
        translate_qna_lines no_translation_string
          source_general_lang target_lang rest (written ++ [line])
      else if bool_decide (length fields ≠ 3) then
        (inl (InvalidColumns fields), written, [PrintedFields fields])
      else
        match translate_answers no_translation_string
                source_general_lang target_lang (tail fields) with
        | inl e => (inl e, written, [])
        | inr result =>
            translate_qna_lines no_translation_string
              source_general_lang target_lang rest
              (written ++ [join SEPARATOR
                             (default EmptyString (head fields) :: result)])
        end
  end.

(** Lines 55 to 100. *)
Definition translate_qna (source_lang target_lang : string)
    (fs : gmap string (list string))
  : (translate_error + unit) * gmap string (list string) * list printed :=
  if decide (source_lang = target_lang) then (inl SameLanguage, fs, [])
  else if decide (target_lang ∉ languages_input ∨ source_lang ∉ languages_input)
  then (inl LanguageNotListed, fs, [])
  else
    let source_general_lang := get_general_lang source_lang in
    let source_file := QNA_FILE_NAME +:+ "_" +:+ source_lang +:+ QNA_FILE_EXT in
    let target_file := QNA_FILE_NAME +:+ "_" +:+ target_lang +:+ QNA_FILE_EXT in
    let head := Translating source_file source_lang target_lang target_file in
    match fs !! source_file with
    | None => (inr (), fs, [FileNotFoundMessage source_file])
    | Some [] =>
        (inl (UnexpectedError StopIteration), <[target_file := []]> fs, [head])
    | Some [header] =>
        (inl (UnexpectedError StopIteration), <[target_file := [header]]> fs,
         [head])
    | Some (header :: no_translation_string :: reader) =>
        let '(outcome, written, out) :=
          translate_qna_lines no_translation_string
            source_general_lang target_lang reader
            [header; no_translation_string] in
        match outcome with
        | inl cause =>
            (inl (UnexpectedError cause), <[target_file := written]> fs,
             head :: out)
        | inr _ =>
            (inr (), <[target_file := written]> fs, head :: out ++ [Finished])
        end
    end.

(** The language chosen at line 37. *)
Context (BASE_LANG : string).

(** Lines 185 to 187: one request for each language after the first;
    [.text] of a list of results raises [AttributeError]. *)
Fixpoint translate_message (general_base_lang text : string)
    (langs : list string) : unexpected + list string :=
  match langs with
  | [] => inr []
  | lang :: rest =>
      match translate_text text general_base_lang lang with
      | inl reason => inl (TranslatorError reason)
      | inr (TextResults _) => inl AttributeError
      | inr (TextResult translated) =>
          match translate_message general_base_lang text rest with
          | inl e => inl e
          | inr translated_fields => inr (translated :: translated_fields)
          end
      end
  end.

(** Lines 164 to 189. *)
Fixpoint translate_bot_lines (general_base_lang : string)
    (target_langs : list string) (reader : list string) (written : list string)
  : (unexpected + unit) * list string :=
  match reader with
  | [] => (inr (), written)
  | raw :: rest =>
      let line := str_strip ops raw in
      if decide (line = EmptyString) then
        translate_bot_lines general_base_lang target_langs rest written
      else
        let fields := split SEPARATOR line in
        if negb BOT_MESSAGES_CHANGED
           && bool_decide (length fields = length target_langs + 1) then
          translate_bot_lines general_base_lang target_langs rest
            (written ++ [line +:+ LF])
        else
          match fields with
          | _ :: text :: _ =>
              match translate_message general_base_lang text
                      (tail target_langs) with
              | inl e => (inl e, written)
              | inr translated_fields =>
                  translate_bot_lines general_base_lang target_langs rest
                    (written ++ [join SEPARATOR (text :: translated_fields)
                                   +:+ LF])
              end
          | _ => (inl IndexError, written)
          end
  end.

(** Lines 146 to 195: the file is read whole, then opened again for
    writing. *)
Definition translate_bot_messages (fs : gmap string (list string))
  : (translate_error + unit) * gmap string (list string) * list printed :=
  let input_file := ADDITIONAL_TEXT_FILE_NAME +:+ QNA_FILE_EXT in
  let general_base_lang := get_general_lang BASE_LANG in
  match fs !! input_file with
  | None => (inr (), fs, [FileNotFoundMessage input_file])
  | Some (first :: second :: header :: reader) =>
      let written := [first; second; header] in
      let target_langs := tail (split SEPARATOR (str_strip ops header)) in
      let target_langs :=
        BASE_LANG :: filter (λ lang, lang ≠ BASE_LANG) target_langs in
      if decide (target_langs ≠ languages_input) then
        (inl (UnexpectedError LanguagesDoNotMatch),
         <[input_file := written]> fs, [])
      else
        match translate_bot_lines general_base_lang target_langs reader
                written with
        | (inl cause, written) =>
            (inl (UnexpectedError cause), <[input_file := written]> fs, [])
        | (inr _, written) =>
            (inr (), <[input_file := written]> fs, [Finished])
        end
  | Some short =>
      (inl (UnexpectedError StopIteration), <[input_file := short]> fs, [])
  end.

End Translate.

(** ** The calls at the end of the script (lines 198 to 207) *)

(** Lines 199 to 201 and 203 to 205: one call for each language other
    than the base language; an exception ends the script. *)
Fixpoint translate_each
    (translate : string → string → gmap string (list string) →
                 (translate_error + unit) * gmap string (list string)
                 * list printed)
    (BASE_LANG : string) (languages : list string)
    (fs : gmap string (list string))
  : (translate_error + unit) * gmap string (list string) * list printed :=
  match languages with
  | [] => (inr (), fs, [])
  | lang :: rest =>
      if decide (lang ≠ BASE_LANG) then
        match translate BASE_LANG lang fs with
        | (inl e, fs, out) => (inl e, fs, out)
        | (inr _, fs, out) =>
            let '(outcome, fs, rest_out) :=
              translate_each translate BASE_LANG rest fs in
            (outcome, fs, out ++ rest_out)
        end
      else translate_each translate BASE_LANG rest fs
  end.

(** Lines 198 to 207, with the three answers of lines 43 to 47. *)
Definition translate_selected (ops : StrOps) (isdigit : string → bool)
    (languages_input : list string)
    (translate_text : string → string → string → string + translation)
    (SYNONYMS_FILE_NAME QNA_FILE_NAME ADDITIONAL_TEXT_FILE_NAME : string)
    (BASE_LANG : string)
    (TRANSLATE_QNA TRANSLATE_SYNONYMS TRANSLATE_BOT_MESSAGES : bool)
    (fs : gmap string (list string))
  : (translate_error + unit) * gmap string (list string) * list printed :=
  let '(outcome, fs, qna_out) :=
    if TRANSLATE_QNA then
      translate_each
        (translate_qna ops isdigit languages_input translate_text
           QNA_FILE_NAME)
        BASE_LANG languages_input fs
    else (inr (), fs, []) in
  match outcome with
  | inl e => (inl e, fs, qna_out)
  | inr _ =>
      let '(outcome, fs, synonyms_out) :=
        if TRANSLATE_SYNONYMS then
          translate_each
            (translate_synonyms ops languages_input translate_text
               SYNONYMS_FILE_NAME)
            BASE_LANG languages_input fs
        else (inr (), fs, []) in
      match outcome with
      | inl e => (inl e, fs, qna_out ++ synonyms_out)
      | inr _ =>
          let '(outcome, fs, messages_out) :=
            if TRANSLATE_BOT_MESSAGES then
              translate_bot_messages ops languages_input translate_text
                ADDITIONAL_TEXT_FILE_NAME BASE_LANG fs
            else (inr (), fs, []) in
          (outcome, fs, qna_out ++ synonyms_out ++ messages_out)
      end
  end.

(** * Properties *)

(** ** Distinct words of a line *)

Lemma remove_dups_length_le (line : list word) :
  length (remove_dups line) ≤ length line.
Proof.
  induction line as [|w line IH]; simpl; [lia|].
  destruct (decide_rel _ w line); simpl; lia.
Qed.

Lemma remove_dups_NoDup_id (line : list word) :
  NoDup line → remove_dups line = line.
Proof.
  induction 1 as [|w line Hw _ IH]; simpl; [done|].
  destruct (decide_rel _ w line); [done|]. by rewrite IH.
Qed.

Lemma remove_dups_length_NoDup (line : list word) :
  length (remove_dups line) = length line → NoDup line.
Proof.
  induction line as [|w line IH]; simpl; [constructor|].
  pose proof (remove_dups_length_le line).
  destruct (decide_rel _ w line); simpl; intros Hlen; [lia|].
  constructor; [done|]. apply IH. lia.
Qed.

Section SetOrderFacts.
Context (o : SetOrder).

Lemma set_list_elem line w : w ∈ set_list o line ↔ w ∈ line.
Proof. rewrite (set_list_perm o line). apply elem_of_remove_dups. Qed.

Lemma set_list_NoDup line : NoDup (set_list o line).
Proof. rewrite (set_list_perm o line). apply NoDup_remove_dups. Qed.

Lemma set_list_length line :
  length (set_list o line) = length (remove_dups line).
Proof. by rewrite (set_list_perm o line). Qed.

Lemma set_list_length_le line : length (set_list o line) ≤ length line.
Proof. rewrite set_list_length. apply remove_dups_length_le. Qed.

Lemma set_list_Permutation line : NoDup line → set_list o line ≡ₚ line.
Proof.
  intros Hnd. rewrite (set_list_perm o line). by rewrite remove_dups_NoDup_id.
Qed.

Lemma set_list_to_set line :
  list_to_set (set_list o line) =@{gset word} list_to_set line.
Proof.
  apply set_eq. intros w. by rewrite !elem_of_list_to_set, set_list_elem.
Qed.

Lemma set_list_nonempty line : line ≠ [] → set_list o line ≠ [].
Proof.
  destruct line as [|w line]; [done|]. intros _ Hnil.
  assert (w ∈ set_list o (w :: line)) as Hw by (apply set_list_elem; left).
  rewrite Hnil in Hw. by apply elem_of_nil in Hw.
Qed.
End SetOrderFacts.

(** ** The scan of one line *)

Lemma scan_line_None line P P' :
  scan_line line P = (None, P') →
  P' = list_to_set line ∪ P ∧ ∀ w, w ∈ line → w ∉ P.
Proof.
  revert P. induction line as [|w line IH]; simpl; intros P Hscan.
  - inversion Hscan. split; [set_solver|]. intros w Hw. by apply elem_of_nil in Hw.
  - destruct (decide (w ∈ P)); [done|].
    apply IH in Hscan as [-> Hnot]. split; [set_solver|].
    intros w' [->|Hw']%elem_of_cons; [done|].
    specialize (Hnot w' Hw'). set_solver.
Qed.

Lemma scan_line_Some line P P' synonym :
  scan_line line P = (Some synonym, P') →
  synonym ∈ line ∧ P ⊆ P' ∧ P' ⊆ list_to_set line ∪ P ∧
  (NoDup line → synonym ∈ P).
Proof.
  revert P. induction line as [|w line IH]; simpl; intros P Hscan; [done|].
  destruct (decide (w ∈ P)).
  - inversion Hscan; subst. repeat split; [left|set_solver..|done].
  - apply IH in Hscan as (Hin & Hsub & Hsup & Hnd).
    repeat split; [by right|set_solver..|].
    intros [Hw Hline]%NoDup_cons. specialize (Hnd Hline).
    apply elem_of_union in Hnd as [Heq%elem_of_singleton|]; [|done].
    by subst.
Qed.

Lemma scan_line_fresh line P :
  NoDup line → (∀ w, w ∈ line → w ∉ P) →
  scan_line line P = (None, list_to_set line ∪ P).
Proof.
  revert P. induction line as [|w line IH]; simpl; intros P Hnd Hfresh.
  - f_equal. set_solver.
  - apply NoDup_cons in Hnd as [Hw Hnd].
    destruct (decide (w ∈ P)) as [Hin|_]; [by destruct (Hfresh w); [left|]|].
    rewrite IH; [f_equal; set_solver|done|].
    intros w' Hw'. specialize (Hfresh w' ltac:(by right)). set_solver.
Qed.

(** ** One visit, case by case *)

Lemma visit_Ok o st line st' :
  visit o st line = Ok st' → visited o st line st'.
Proof.
  unfold visit. destruct (decide (length line < 2)) as [Hlt|Hge].
  - intros [= <-]. by constructor.
  - destruct (scan_line _ _) as [[synonym|] P] eqn:Hscan.
    + unfold substitute_synonyms.
      destruct (list_find _ _) as [[t target]|] eqn:Hfind; [|done].
      intros [= <-]. eapply visited_merge; [lia|done..].
    + intros [= <-]. apply visited_keep; [lia|done].
Qed.

(** The search of [substitute_synonyms] cannot come back empty handed: the
    current line, just written back at its index, holds the word. *)
Lemma visit_total o st line :
  lines st !! idx st = Some line → ∃ st', visit o st line = Ok st'.
Proof.
  intros Hline. unfold visit. destruct (decide (length line < 2)); [eauto|].
  destruct (scan_line _ _) as [[synonym|] P] eqn:Hscan; [|eauto].
  apply scan_line_Some in Hscan as (Hin & _).
  unfold substitute_synonyms.
  destruct (list_find_elem_of (λ l, synonym ∈ l)
              (<[idx st := set_list o line]> (lines st)) (set_list o line))
    as [[t target] ->]; [|done|by eexists].
  apply list_elem_of_insert. by eapply lookup_lt_Some.
Qed.

(** ** Where the processed words are *)

Lemma located_start synonymsByLine : located (pass_start synonymsByLine).
Proof. intros w Hw. simpl in Hw. set_solver. Qed.

Lemma merge_target o st line synonym P t target :
  located st →
  scan_line (set_list o line) (processed st) = (Some synonym, P) →
  list_find (λ l, synonym ∈ l) (<[idx st := set_list o line]> (lines st))
    = Some (t, target) →
  t < idx st ∧ lines st !! t = Some target ∧ synonym ∈ target ∧
  ∀ j l, j < t → lines st !! j = Some l → synonym ∉ l.
Proof.
  intros Hloc Hscan Hfind.
  apply scan_line_Some in Hscan as (_ & _ & _ & Hproc).
  specialize (Hproc (set_list_NoDup o line)).
  destruct (Hloc _ Hproc) as (j & l & Hj & Hl & Hin).
  apply list_find_Some in Hfind as (Ht & Htarget & Hfirst).
  assert (t < idx st) as Hlt.
  { destruct (decide (t ≤ j)); [lia|]. exfalso.
    apply (Hfirst j l); [|lia|done].
    rewrite list_lookup_insert_ne by lia. done. }
  rewrite list_lookup_insert_ne in Ht by lia.
  repeat split; [done..|].
  intros j' l' Hj' Hl'. apply (Hfirst j' l'); [|done].
  rewrite list_lookup_insert_ne by lia. done.
Qed.

Lemma visited_located o st line st' :
  lines st !! idx st = Some line →
  located st → visited o st line st' → located st'.
Proof.
  intros Hline Hloc Hv. pose proof (lookup_lt_Some _ _ _ Hline) as Hi.
  destruct Hv as [Hlt|P Hge Hscan|synonym P t target Hge Hscan Hfind];
    intros w Hw; simpl in *.
  - destruct (Hloc w Hw) as (j & l & Hj & Hl & Hin).
    exists j, l. rewrite list_lookup_delete_lt by lia. auto with lia.
  - apply scan_line_None in Hscan as [-> _].
    apply elem_of_union in Hw as [Hw|Hw].
    + exists (idx st), (set_list o line).
      rewrite list_lookup_insert_eq by done.
      apply elem_of_list_to_set in Hw. auto with lia.
    + destruct (Hloc w Hw) as (j & l & Hj & Hl & Hin).
      exists j, l. rewrite list_lookup_insert_ne by lia. auto with lia.
  - destruct (merge_target _ _ _ _ _ _ _ Hloc Hscan Hfind) as (Ht & Htarget & _).
    apply scan_line_Some in Hscan as (_ & _ & Hsup & _).
    assert (w ∈ set_list o line ∨ w ∈ processed st) as [Hw'|Hw'].
    { rewrite <- (elem_of_list_to_set (C:=gset word)). set_solver. }
    + exists t, (target ++ set_list o line).
      rewrite list_lookup_insert_ne by lia.
      rewrite list_lookup_insert_eq by (rewrite length_insert; lia).
      split_and!; [lia|done|]. apply elem_of_app; by right.
    + destruct (Hloc w Hw') as (j & l & Hj & Hl & Hin).
      destruct (decide (j = t)) as [->|Hne].
      * exists t, (target ++ set_list o line).
        rewrite list_lookup_insert_ne by lia.
        rewrite list_lookup_insert_eq by (rewrite length_insert; lia).
        split_and!; [lia|done|]. apply elem_of_app; left. congruence.
      * exists j, l. rewrite !list_lookup_insert_ne by lia. auto with lia.
Qed.

(** ** The weight of the line list *)

Lemma measure_insert (L : list (list word)) i x y :
  L !! i = Some x → measure (<[i:=y]> L) + weight x = measure L + weight y.
Proof.
  unfold measure. revert i. induction L as [|l L IH]; intros [|i] Hi;
    simplify_eq/=; [lia|].
  specialize (IH i Hi). lia.
Qed.

Lemma measure_delete (L : list (list word)) i x :
  L !! i = Some x → measure (delete i L) + weight x = measure L.
Proof.
  unfold measure. revert i. induction L as [|l L IH]; intros [|i] Hi;
    simplify_eq/=; [lia|].
  specialize (IH i Hi). lia.
Qed.

Lemma weight_pos line : 1 ≤ weight line.
Proof. unfold weight. destruct line; lia. Qed.

Lemma weight_nonempty line : line ≠ [] → weight line = length line + 2.
Proof. unfold weight. by destruct line. Qed.

Lemma visited_measure o st line st' :
  lines st !! idx st = Some line →
  located st → visited o st line st' →
  measure (lines st') ≤ measure (lines st) ∧
  (changes st' = true →
   changes st = true ∨ measure (lines st') < measure (lines st)).
Proof.
  intros Hline Hloc Hv. pose proof (lookup_lt_Some _ _ _ Hline) as Hi.
  destruct Hv as [Hlt|P Hge Hscan|synonym P t target Hge Hscan Hfind]; simpl.
  - pose proof (measure_delete _ _ _ Hline). pose proof (weight_pos line). lia.
  - pose proof (measure_insert _ _ _ (set_list o line) Hline) as Hm.
    pose proof (set_list_length_le o line) as Hle.
    assert (line ≠ []) as Hne by (intros ->; simpl in Hge; lia).
    rewrite (weight_nonempty line), (weight_nonempty (set_list o line)) in Hm
      by auto using set_list_nonempty.
    split; [lia|]. destruct (decide _); [right; lia|by left].
  - destruct (merge_target _ _ _ _ _ _ _ Hloc Hscan Hfind)
      as (Ht & Htarget & Hin & _).
    assert (line ≠ []) as Hne by (intros ->; simpl in Hge; lia).
    pose proof (set_list_nonempty o line Hne) as Hne'.
    pose proof (set_list_length_le o line) as Hle.
    set (line' := set_list o line) in *.
    set (L1 := <[idx st := line']> (lines st)).
    set (L2 := <[t := target ++ line']> L1).
    pose proof (measure_insert _ _ _ line' Hline) as Hm1. fold L1 in Hm1.
    assert (L1 !! t = Some target) as Ht1
      by (unfold L1; rewrite list_lookup_insert_ne by lia; done).
    pose proof (measure_insert _ _ _ (target ++ line') Ht1) as Hm2. fold L2 in Hm2.
    assert (L2 !! idx st = Some line') as Hi2.
    { unfold L2, L1. rewrite list_lookup_insert_ne by lia.
      by rewrite list_lookup_insert_eq. }
    pose proof (measure_insert _ _ _ [] Hi2) as Hm3.
    assert (target ≠ []) as Hnt by (intros ->; by apply elem_of_nil in Hin).
    rewrite (weight_nonempty line), (weight_nonempty line') in Hm1 by done.
    rewrite (weight_nonempty target) in Hm2 by done.
    rewrite (weight_nonempty (target ++ line')) in Hm2
      by (intros [? _]%app_eq_nil; done).
    rewrite (weight_nonempty line') in Hm3 by done.
    rewrite length_app in Hm2. change (weight []) with 1 in Hm3.
    split; [lia|]. intros _. right. lia.
Qed.

(** ** Links between words *)

Lemma rtc_linked_sub (L L' : list (list word)) a b :
  (∀ x y, linked L x y → rtc (linked L') x y) →
  rtc (linked L) a b → rtc (linked L') a b.
Proof.
  intros Hsub. induction 1 as [|x y z Hxy _ IH]; [done|].
  etrans; [by apply Hsub|done].
Qed.

Lemma same_links_intro (L L' : list (list word)) :
  (∀ x y, linked L x y → rtc (linked L') x y) →
  (∀ x y, linked L' x y → rtc (linked L) x y) →
  same_links L L'.
Proof. intros H1 H2 a b. split; by apply rtc_linked_sub. Qed.

Lemma same_links_refl L : same_links L L.
Proof. by intros a b. Qed.

Lemma same_links_trans L1 L2 L3 :
  same_links L1 L2 → same_links L2 L3 → same_links L1 L3.
Proof. intros H12 H23 a b. by rewrite (H12 a b). Qed.

Lemma linked_lookup (L : list (list word)) a b :
  linked L a b ↔ ∃ j l, L !! j = Some l ∧ a ∈ l ∧ b ∈ l.
Proof.
  split.
  - intros (l & [j Hj]%list_elem_of_lookup & Ha & Hb). eauto.
  - intros (j & l & Hj & Ha & Hb). exists l.
    split; [by eapply list_elem_of_lookup_2|done].
Qed.

Lemma short_line_one_word (line : list word) a b :
  length line < 2 → a ∈ line → b ∈ line → a = b.
Proof.
  destruct line as [|w [|w' line]]; simpl; intros Hlen Ha Hb; [| |lia].
  - by apply elem_of_nil in Ha.
  - apply list_elem_of_singleton in Ha, Hb. congruence.
Qed.

Lemma merged_lookup (L : list (list word)) i t line' merged j :
  t < i → i < length L →
  <[i := []]> (<[t := merged]> (<[i := line']> L)) !! j =
    if decide (j = i) then Some []
    else if decide (j = t) then Some merged else L !! j.
Proof.
  intros Ht Hi. destruct (decide (j = i)) as [->|Hji].
  - rewrite list_lookup_insert_eq; [done|]. by rewrite !length_insert.
  - rewrite list_lookup_insert_ne by done.
    destruct (decide (j = t)) as [->|Hjt].
    + rewrite list_lookup_insert_eq; [done|]. rewrite length_insert. lia.
    + by rewrite !list_lookup_insert_ne by done.
Qed.

Lemma visited_links o st line st' :
  lines st !! idx st = Some line →
  located st → visited o st line st' → same_links (lines st) (lines st').
Proof.
  intros Hline Hloc Hv. pose proof (lookup_lt_Some _ _ _ Hline) as Hi.
  destruct Hv as [Hlt|P Hge Hscan|synonym P t target Hge Hscan Hfind]; simpl;
    apply same_links_intro; intros a b.
  - intros (j & l & Hj & Ha & Hb)%linked_lookup.
    destruct (decide (j = idx st)) as [->|Hne].
    + assert (l = line) as -> by congruence.
      by rewrite (short_line_one_word line a b).
    + apply rtc_once, linked_lookup.
      destruct (decide (j < idx st)).
      * exists j, l. by rewrite list_lookup_delete_lt.
      * exists (pred j), l. rewrite list_lookup_delete_ge by lia.
        by replace (S (pred j)) with j by lia.
  - intros (l & Hl%list_elem_of_delete_inv & Ha & Hb).
    apply rtc_once. by exists l.
  - intros (j & l & Hj & Ha & Hb)%linked_lookup.
    apply rtc_once, linked_lookup.
    destruct (decide (j = idx st)) as [->|Hne].
    + assert (l = line) as -> by congruence.
      exists (idx st), (set_list o line).
      rewrite list_lookup_insert_eq by done. by rewrite !set_list_elem.
    + exists j, l. by rewrite list_lookup_insert_ne.
  - intros (j & l & Hj & Ha & Hb)%linked_lookup.
    apply rtc_once, linked_lookup.
    destruct (decide (j = idx st)) as [->|Hne].
    + rewrite list_lookup_insert_eq in Hj by done.
      assert (l = set_list o line) as -> by congruence.
      apply set_list_elem in Ha, Hb. by exists (idx st), line.
    + exists j, l. by rewrite list_lookup_insert_ne in Hj.
  - destruct (merge_target _ _ _ _ _ _ _ Hloc Hscan Hfind)
      as (Ht & Htarget & Hin & _).
    intros (j & l & Hj & Ha & Hb)%linked_lookup.
    apply rtc_once, linked_lookup.
    destruct (decide (j = idx st ∨ j = t)) as [Hj'|Hj'].
    + exists t, (target ++ set_list o line).
      rewrite merged_lookup by done.
      rewrite decide_False, decide_True by lia.
      split; [done|]. rewrite !elem_of_app, !set_list_elem.
      destruct Hj' as [->| ->].
      * assert (l = line) as -> by congruence. auto.
      * assert (l = target) as -> by congruence. auto.
    + exists j, l. rewrite merged_lookup by done.
      by rewrite !decide_False by lia.
  - destruct (merge_target _ _ _ _ _ _ _ Hloc Hscan Hfind)
      as (Ht & Htarget & Hin & _).
    pose proof Hscan as (Hsyn & _)%scan_line_Some.
    apply set_list_elem in Hsyn.
    assert (∀ x y, x ∈ target → y ∈ target → linked (lines st) x y) as Htt.
    { intros x y Hx Hy. apply linked_lookup. by exists t, target. }
    assert (∀ x y, x ∈ line → y ∈ line → linked (lines st) x y) as Hll.
    { intros x y Hx Hy. apply linked_lookup. by exists (idx st), line. }
    intros (j & l & Hj & Ha & Hb)%linked_lookup.
    rewrite merged_lookup in Hj by done.
    destruct (decide (j = idx st)) as [->|Hji].
    { assert (l = []) as -> by congruence. by apply elem_of_nil in Ha. }
    destruct (decide (j = t)) as [->|Hjt].
    + assert (l = target ++ set_list o line) as -> by congruence.
      rewrite !elem_of_app, !set_list_elem in Ha, Hb.
      destruct Ha as [Ha|Ha], Hb as [Hb|Hb].
      * apply rtc_once; auto.
      * apply rtc_l with synonym; [|apply rtc_once]; auto.
      * apply rtc_l with synonym; [|apply rtc_once]; auto.
      * apply rtc_once; auto.
    + apply rtc_once, linked_lookup. by exists j, l.
Qed.

(** ** Passes as sequences of steps *)

Lemma step_shape o st st' :
  step o st st' →
  idx st' = S (idx st) ∧ length (lines st') ≤ length (lines st).
Proof.
  intros (line & Hline & Hv%visit_Ok).
  destruct Hv; simpl; rewrite ?length_insert, ?length_delete by eauto;
    split; lia.
Qed.

Lemma step_located o st st' : located st → step o st st' → located st'.
Proof. intros Hloc (line & Hline & Hv%visit_Ok). by eapply visited_located. Qed.

Lemma steps_located o st st' :
  rtc (step o) st st' → located st → located st'.
Proof. induction 1; eauto using step_located. Qed.

Lemma steps_measure o st st' :
  rtc (step o) st st' → located st →
  measure (lines st') ≤ measure (lines st) ∧
  (changes st' = true →
   changes st = true ∨ measure (lines st') < measure (lines st)).
Proof.
  induction 1 as [st|st st1 st' Hstep _ IH]; intros Hloc; [auto|].
  pose proof (step_located _ _ _ Hloc Hstep) as Hloc1.
  destruct Hstep as (line & Hline & Hv%visit_Ok).
  destruct (visited_measure _ _ _ _ Hline Hloc Hv) as [Hle Hch].
  destruct (IH Hloc1) as [Hle' Hch']. split; [lia|].
  intros Htrue. destruct (Hch' Htrue) as [Hc|Hlt]; [|right; lia].
  destruct (Hch Hc); [by left|right; lia].
Qed.

Lemma steps_links o st st' :
  rtc (step o) st st' → located st → same_links (lines st) (lines st').
Proof.
  induction 1 as [st|st st1 st' Hstep _ IH]; intros Hloc;
    [apply same_links_refl|].
  pose proof (step_located _ _ _ Hloc Hstep) as Hloc1.
  destruct Hstep as (line & Hline & Hv%visit_Ok).
  eapply same_links_trans; [by eapply visited_links|auto].
Qed.

(** With fuel for the lines that remain, the [for] loop runs to the end of
    the list. *)
Lemma pass_loop_steps o fuel st :
  length (lines st) - idx st ≤ fuel →
  ∃ st', pass_loop o fuel st = Ok st' ∧ rtc (step o) st st' ∧
         lines st' !! idx st' = None.
Proof.
  revert st. induction fuel as [|fuel IH]; intros st Hfuel; simpl.
  - rewrite lookup_ge_None_2 by lia. exists st.
    split_and!; [done..|]. apply lookup_ge_None_2. lia.
  - destruct (lines st !! idx st) as [line|] eqn:Hline; [|by exists st].
    destruct (visit_total o st line Hline) as [st1 Hvisit]. rewrite Hvisit.
    assert (step o st st1) as Hstep by (by exists line).
    destruct (step_shape _ _ _ Hstep) as [Hidx Hlen].
    apply lookup_lt_Some in Hline.
    destruct (IH st1) as (st' & Hrun & Hsteps & Hend); [lia|].
    exists st'. split_and!; [done| |done]. by eapply rtc_l.
Qed.

Lemma pass_steps o synonymsByLine :
  ∃ st, pass o synonymsByLine = Ok st ∧
        rtc (step o) (pass_start synonymsByLine) st ∧
        lines st !! idx st = None.
Proof. apply pass_loop_steps. simpl. lia. Qed.

(** ** Passes that change nothing *)

Lemma pass_loop_end o fuel st :
  lines st !! idx st = None → pass_loop o fuel st = Ok st.
Proof. intros Hend. destruct fuel; simpl; by rewrite Hend. Qed.

Lemma pass_loop_visit o fuel st line :
  lines st !! idx st = Some line →
  pass_loop o (S fuel) st = visit o st line ≫= pass_loop o fuel.
Proof. intros Hline. simpl. by rewrite Hline. Qed.

Lemma settled_from_set_list o P rest :
  settled_from P rest → settled_from P (set_list o <$> rest).
Proof.
  revert P. induction rest as [|line rest IH]; intros P; [done|].
  intros (Hlen & Hnd & Hfresh & Hrest). simpl.
  rewrite (set_list_Permutation o line Hnd) at 1. rewrite set_list_to_set.
  split_and!; [done|apply set_list_NoDup| |by apply IH].
  intros w Hw%set_list_elem. by apply Hfresh.
Qed.

Lemma settled_from_spec P rest :
  settled_from P rest ↔
  (∀ line, line ∈ rest →
     2 ≤ length line ∧ NoDup line ∧ ∀ w, w ∈ line → w ∉ P) ∧
  (∀ i j l1 l2, i < j → rest !! i = Some l1 → rest !! j = Some l2 →
     ∀ w, w ∈ l1 → w ∉ l2).
Proof.
  revert P. induction rest as [|line rest IH]; intros P; simpl.
  - split; [|done]. intros _. split.
    + intros line Hin. by apply elem_of_nil in Hin.
    + intros i j l1 l2 _ Hi. by rewrite lookup_nil in Hi.
  - rewrite IH. split.
    + intros (Hlen & Hnd & Hfresh & Hall & Hpair). split.
      * intros l [->|Hl]%elem_of_cons; [done|].
        destruct (Hall l Hl) as (? & ? & Hf). split_and!; [done..|].
        intros w Hw. specialize (Hf w Hw). set_solver.
      * intros [|i] [|j] l1 l2 Hij Hi Hj w Hw; simplify_eq/=; [lia| |lia|].
        -- destruct (Hall l2) as (_ & _ & Hf); [by eapply list_elem_of_lookup_2|].
           intros Hw2. specialize (Hf w Hw2). set_solver.
        -- apply (Hpair i j l1 l2); [lia|done..].
    + intros [Hall Hpair].
      destruct (Hall line) as (Hlen & Hnd & Hfresh); [left|].
      split_and!; [done..| |].
      * intros l Hl. destruct (Hall l) as (? & ? & Hf); [by right|].
        split_and!; [done..|]. intros w Hw.
        apply list_elem_of_lookup in Hl as [j Hj].
        specialize (Hpair 0 (S j) line l ltac:(lia) eq_refl Hj).
        specialize (Hf w Hw). rewrite not_elem_of_union, elem_of_list_to_set.
        split; [|done]. intros Hwl. by apply (Hpair w).
      * intros i j l1 l2 Hij Hi Hj. apply (Hpair (S i) (S j)); [lia|done..].
Qed.

Lemma converged_settled synonymsByLine :
  converged synonymsByLine ↔ settled_from ∅ synonymsByLine.
Proof.
  rewrite settled_from_spec. unfold converged. split; intros [Hall Hpair].
  - split.
    + intros line Hin. destruct (Hall line Hin). split_and!; [done..|].
      intros w _. apply not_elem_of_empty.
    + intros i j l1 l2 Hij. apply Hpair. lia.
  - split; [intros line Hin; by destruct (Hall line Hin) as (? & ? & _)|].
    intros i j l1 l2 Hij Hi Hj w Hw1 Hw2.
    destruct (decide (i < j)).
    + by apply (Hpair i j l1 l2 ltac:(done) Hi Hj w).
    + by apply (Hpair j i l2 l1 ltac:(lia) Hj Hi w).
Qed.

Lemma converged_set_list o synonymsByLine :
  converged synonymsByLine → converged (set_list o <$> synonymsByLine).
Proof. rewrite !converged_settled. apply settled_from_set_list. Qed.

Lemma pass_loop_settled o fuel pre rest P c :
  settled_from P rest → length rest ≤ fuel →
  ∃ P', pass_loop o fuel (State (pre ++ rest) P c (length pre)) =
        Ok (State (pre ++ (set_list o <$> rest)) P' c
                  (length pre + length rest)).
Proof.
  revert pre P fuel. induction rest as [|line rest IH]; intros pre P fuel.
  - intros _ _. exists P. rewrite pass_loop_end; simpl.
    + by rewrite Nat.add_0_r.
    + apply lookup_ge_None_2. rewrite app_nil_r. lia.
  - intros (Hlen & Hnd & Hfresh & Hrest) Hfuel.
    destruct fuel as [|fuel]; [simpl in Hfuel; lia|].
    rewrite (pass_loop_visit _ _ _ line) by (by apply list_lookup_middle).
    unfold visit. simpl.
    rewrite decide_False by lia.
    pose proof (set_list_Permutation o line Hnd) as Hperm.
    rewrite (scan_line_fresh (set_list o line) P);
      [|apply set_list_NoDup|intros w Hw%set_list_elem; by apply Hfresh].
    rewrite decide_False by (rewrite Hperm; lia).
    rewrite insert_app_r_alt, Nat.sub_diag by lia. simpl.
    rewrite set_list_to_set.
    destruct (IH (pre ++ [set_list o line]) (list_to_set line ∪ P) fuel)
      as [P' HP']; [done|simpl in Hfuel; lia|].
    rewrite length_app, <- !(assoc_L (++)) in HP'. simpl in HP'.
    exists P'. rewrite Nat.add_1_r in HP'. rewrite HP'.
    do 2 f_equal. lia.
Qed.

Lemma pass_converged o synonymsByLine :
  converged synonymsByLine →
  ∃ P, pass o synonymsByLine =
       Ok (State (set_list o <$> synonymsByLine) P false (length synonymsByLine)).
Proof.
  intros Hconv%converged_settled.
  apply (pass_loop_settled o (length synonymsByLine) [] synonymsByLine ∅ false);
    done.
Qed.

Lemma steps_unchanged o st st' :
  rtc (step o) st st' → lines st' !! idx st' = None → changes st' = false →
  changes st = false ∧
  settled_from (processed st) (drop (idx st) (lines st)) ∧
  lines st' = take (idx st) (lines st) ++ (set_list o <$> drop (idx st) (lines st)).
Proof.
  induction 1 as [st|st st1 st' Hstep _ IH]; intros Hend Hch.
  - apply lookup_ge_None_1 in Hend.
    rewrite drop_ge, take_ge by done. simpl. by rewrite app_nil_r.
  - destruct (IH Hend Hch) as (Hch1 & Hset & Hlines). clear IH.
    destruct Hstep as (line & Hline & Hv%visit_Ok).
    pose proof (lookup_lt_Some _ _ _ Hline) as Hi.
    destruct Hv as [Hlt|P Hge Hscan|synonym P t target Hge Hscan Hfind];
      simpl in *; [done| |done].
    destruct (decide (length (set_list o line) ≠ length line)) as [|Heq%dec_stable];
      [done|].
    rewrite set_list_length in Heq. apply remove_dups_length_NoDup in Heq.
    apply scan_line_None in Hscan as [-> Hfresh].
    rewrite set_list_to_set in Hset.
    rewrite drop_insert_lt in Hset, Hlines by lia.
    rewrite (take_S_r _ _ (set_list o line)) in Hlines
      by (by rewrite list_lookup_insert_eq).
    rewrite take_insert_ge in Hlines by lia.
    rewrite (drop_S _ _ _ Hline). simpl.
    split_and!; [done..| |done|].
    + intros w Hw. apply Hfresh. by apply set_list_elem.
    + by rewrite Hlines, <- (assoc_L (++)).
Qed.

Lemma pass_unchanged o synonymsByLine st :
  pass o synonymsByLine = Ok st → changes st = false →
  converged synonymsByLine ∧ lines st = set_list o <$> synonymsByLine.
Proof.
  intros Hpass Hch.
  destruct (pass_steps o synonymsByLine) as (st' & Hrun & Hsteps & Hend).
  assert (st' = st) as -> by congruence.
  destruct (steps_unchanged _ _ _ Hsteps Hend Hch) as (_ & Hset & Hlines).
  simpl in *. rewrite drop_0 in *. by rewrite converged_settled.
Qed.

(** ** The [while] loop *)

Lemma pass_facts o synonymsByLine :
  ∃ st, pass o synonymsByLine = Ok st ∧
        same_links synonymsByLine (lines st) ∧
        (changes st = true → measure (lines st) < measure synonymsByLine).
Proof.
  destruct (pass_steps o synonymsByLine) as (st & Hpass & Hsteps & _).
  pose proof (located_start synonymsByLine) as Hloc.
  exists st. split_and!; [done|by apply (steps_links _ _ _ Hsteps)|].
  intros Hch. by destruct (steps_measure _ _ _ Hsteps Hloc) as [_ [?|?]]; auto.
Qed.

(** The loop makes [n] passes, the last of which changes nothing; [n] is at
    most the weight of the input plus one. *)
Lemma merge_loop_passes o bound synonymsByLine :
  measure synonymsByLine ≤ bound →
  ∃ n out last st,
    1 ≤ n ≤ S bound ∧
    (∀ fuel, n ≤ fuel → merge_loop o fuel synonymsByLine = Ok out) ∧
    (∀ fuel, fuel < n → merge_loop o fuel synonymsByLine = Err OutOfFuel) ∧
    pass o last = Ok st ∧ changes st = false ∧ lines st = out ∧
    same_links synonymsByLine last.
Proof.
  revert synonymsByLine. induction bound as [|bound IH]; intros L Hm;
    destruct (pass_facts o L) as (st & Hpass & Hlinks & Hdec);
    destruct (changes st) eqn:Hch.
  - specialize (Hdec eq_refl). lia.
  - exists 1, (lines st), L, st. split_and!; [lia|lia| | |done|done|done|apply same_links_refl].
    + intros [|fuel] Hfuel; [lia|]. simpl. rewrite Hpass. simpl. by rewrite Hch.
    + intros fuel Hfuel. by replace fuel with 0 by lia.
  - specialize (Hdec eq_refl).
    destruct (IH (lines st))
      as (n & out & last & st' & Hn & Hok & Hout & Hp & Hc & Hl & Hs); [lia|].
    exists (S n), out, last, st'.
    split_and!; [lia|lia| | |done|done|done|by eapply same_links_trans].
    + intros [|fuel] Hfuel; [lia|]. simpl. rewrite Hpass. simpl. rewrite Hch.
      apply Hok. lia.
    + intros [|fuel] Hfuel; [done|]. simpl. rewrite Hpass. simpl. rewrite Hch.
      apply Hout. lia.
  - exists 1, (lines st), L, st. split_and!; [lia|lia| | |done|done|done|apply same_links_refl].
    + intros [|fuel] Hfuel; [lia|]. simpl. rewrite Hpass. simpl. by rewrite Hch.
    + intros fuel Hfuel. by replace fuel with 0 by lia.
Qed.

Lemma linked_set_list o (L : list (list word)) a b :
  linked (set_list o <$> L) a b ↔ linked L a b.
Proof.
  unfold linked. split.
  - intros (l & (l' & -> & Hl')%list_elem_of_fmap & Ha & Hb).
    exists l'. by rewrite !set_list_elem in Ha, Hb.
  - intros (l & Hl & Ha & Hb). exists (set_list o l).
    rewrite !set_list_elem. split; [|done]. by apply list_elem_of_fmap_2.
Qed.

Lemma same_links_set_list o L : same_links L (set_list o <$> L).
Proof.
  apply same_links_intro; intros a b Hl; apply rtc_once;
    by apply (linked_set_list o).
Qed.

(** What [consolidate] returns: the lines of a converged list, each passed
    through [list(set(line))] once more, with the links of the input. *)
Lemma consolidate_spec o synonymsByLine :
  ∃ out last,
    consolidate o synonymsByLine = Ok out ∧
    out = set_list o <$> last ∧ converged last ∧ converged out ∧
    same_links synonymsByLine out.
Proof.
  destruct (merge_loop_passes o (measure synonymsByLine) synonymsByLine)
    as (n & out & last & st & Hn & Hok & _ & Hpass & Hch & Hout & Hlinks); [done|].
  destruct (pass_unchanged _ _ _ Hpass Hch) as [Hconv Heq].
  exists out, last. unfold consolidate.
  split_and!; [apply Hok; lia|congruence|done| |].
  - rewrite <- Hout, Heq. by apply converged_set_list.
  - rewrite <- Hout, Heq.
    eapply same_links_trans; [done|apply same_links_set_list].
Qed.

(** In a converged list the links are already transitive. *)
Lemma converged_same_line (L : list (list word)) l1 l2 w :
  converged L → l1 ∈ L → l2 ∈ L → w ∈ l1 → w ∈ l2 → l1 = l2.
Proof.
  intros [_ Hpair] [i Hi]%list_elem_of_lookup [j Hj]%list_elem_of_lookup Hw1 Hw2.
  destruct (decide (i = j)) as [->|Hne]; [congruence|].
  by destruct (Hpair i j l1 l2 Hne Hi Hj w).
Qed.

Lemma converged_tc_linked (L : list (list word)) a b :
  converged L → tc (linked L) a b → linked L a b.
Proof.
  intros Hconv. induction 1 as [a b Hab|a c b (l1 & Hl1 & Ha & Hc) _ IH]; [done|].
  destruct IH as (l2 & Hl2 & Hc' & Hb).
  assert (l1 = l2) as -> by (by eapply converged_same_line).
  by exists l2.
Qed.

Lemma consolidate_components o synonymsByLine out a b :
  consolidate o synonymsByLine = Ok out → a ≠ b →
  linked out a b ↔ connected synonymsByLine a b.
Proof.
  intros Hrun Hne.
  destruct (consolidate_spec o synonymsByLine)
    as (out' & last & Hrun' & _ & _ & Hconv & Hlinks).
  assert (out' = out) as -> by congruence.
  unfold connected. split.
  - intros Hl. apply rtc_once, Hlinks, rtc_tc in Hl as [?|?]; done.
  - intros Ht. apply tc_rtc, Hlinks, rtc_tc in Ht as [?|Ht]; [done|].
    by apply converged_tc_linked.
Qed.

(** [connected] is the chain of lines of the specification. *)
Lemma connected_chain (L : list (list word)) a b :
  connected L a b ↔ ∃ chain, chain_between L a b chain.
Proof.
  split.
  - induction 1 as [a b (l & Hl & Ha & Hb)|a c b (l & Hl & Ha & Hc) _ IH].
    + exists [l]. split_and!; [|done|by exists l..].
      by intros ? ->%list_elem_of_singleton.
    + destruct IH as (chain & Hin & Hch & (first & Hhead & Hcf) & Hlast).
      destruct chain as [|l0 chain]; [done|]. simplify_eq/=.
      exists (l :: first :: chain). split_and!.
      * intros line [->|Hline]%elem_of_cons; auto.
      * split; [by exists c|done].
      * by exists l.
      * done.
  - intros (chain & Hin & Hch & (first & Hhead & Ha) & (final & Hlast & Hb)).
    revert a first Hhead Ha. induction chain as [|l chain IH];
      intros a first Hhead Ha; simplify_eq/=.
    destruct chain as [|l' chain].
    + simplify_eq/=. apply tc_once. exists final. split; [apply Hin; left|done].
    + destruct Hch as [(w & Hw & Hw') Hch].
      apply tc_l with w; [exists first; split; [apply Hin; left|done]|].
      apply (IH ltac:(intros; apply Hin; by right) Hch Hlast w l'); done.
Qed.

(** ** Lines with two distinct words *)

Lemma NoDup_other_word (line : list word) w :
  NoDup line → 2 ≤ length line → w ∈ line → ∃ b, b ∈ line ∧ b ≠ w.
Proof.
  destruct line as [|x [|y line]]; simpl; intros Hnd Hlen Hw; [lia..|].
  apply NoDup_cons in Hnd as [Hxy _].
  destruct (decide (x = w)) as [->|Hne].
  - exists y. split; [right; left|]. intros ->. apply Hxy. left.
  - exists x. split; [left|done].
Qed.

Lemma line_two_words (line : list word) :
  NoDup line → 2 ≤ length line → ∃ a b, a ∈ line ∧ b ∈ line ∧ a ≠ b.
Proof.
  intros Hnd Hlen. destruct line as [|a line]; [simpl in Hlen; lia|].
  destruct (NoDup_other_word (a :: line) a) as (b & Hb & Hne); [done..|left|].
  exists a, b. split_and!; [left|done..].
Qed.

Lemma two_words_distinct (line : list word) w c :
  w ∈ line → c ∈ line → c ≠ w → 2 ≤ length (remove_dups line).
Proof.
  intros Hw%elem_of_remove_dups Hc%elem_of_remove_dups Hne.
  destruct (remove_dups line) as [|x [|y l]]; simpl; [|exfalso|lia].
  - by apply elem_of_nil in Hw.
  - apply list_elem_of_singleton in Hw, Hc. congruence.
Qed.

Lemma distinct_other_word (line : list word) w :
  w ∈ line → 2 ≤ length (remove_dups line) → ∃ c, c ∈ line ∧ c ≠ w.
Proof.
  intros Hw%elem_of_remove_dups Hlen.
  destruct (NoDup_other_word (remove_dups line) w) as (c & Hc & Hne);
    [apply NoDup_remove_dups|done..|].
  exists c. by rewrite elem_of_remove_dups in Hc.
Qed.

Lemma connected_first_link (L : list (list word)) w b :
  connected L w b → w ≠ b →
  ∃ line c, line ∈ L ∧ w ∈ line ∧ c ∈ line ∧ c ≠ w.
Proof.
  induction 1 as [w b (l & Hl & Hw & Hb)|w c b (l & Hl & Hw & Hc) _ IH];
    intros Hne.
  - exists l, b. auto.
  - destruct (decide (c = w)) as [->|Hcw]; [by apply IH|].
    exists l, c. auto.
Qed.

(** ** The file around the loop *)

Lemma group_synonyms_writes ops o (fs : gmap string (list string))
    filename file_lines separator :
  fs !! filename = Some file_lines →
  separator_of filename = Some separator →
  ∃ out, consolidate o (parse_line ops separator <$> file_lines) = Ok out ∧
         group_synonyms ops o fs filename
         = (Ok (), <[filename := render separator out]> fs).
Proof.
  intros Hfile Hsep. unfold group_synonyms. rewrite Hfile, Hsep.
  destruct (consolidate_spec o (parse_line ops separator <$> file_lines))
    as (out & _ & -> & _). by exists out.
Qed.

(** ** Two partitions with the same links *)

Lemma converged_cells L : converged L ↔ cells L.
Proof.
  split.
  - intros Hconv. pose proof Hconv as [Hall Hpair]. split_and!; [done| |].
    + apply NoDup_alt. intros i j l Hi Hj.
      destruct (decide (i = j)) as [|Hne]; [done|exfalso].
      destruct (Hall l) as [Hlen _]; [by eapply list_elem_of_lookup_2|].
      destruct l as [|w l]; [simpl in Hlen; lia|].
      apply (Hpair i j _ _ Hne Hi Hj w); left.
    + intros l1 l2 w. by apply converged_same_line.
  - intros (Hall & Hnd & Hcell). split; [done|].
    intros i j l1 l2 Hne Hi Hj w Hw1 Hw2. apply Hne.
    assert (l1 = l2) as ->.
    { apply (Hcell l1 l2 w); [by eapply list_elem_of_lookup_2..|done|done]. }
    by eapply NoDup_alt.
Qed.

Lemma cells_Permutation L L' : L ≡ₚ L' → cells L → cells L'.
Proof.
  intros Hperm (Hall & Hnd & Hcell). split_and!.
  - intros line Hline. apply Hall. by rewrite Hperm.
  - by rewrite <- Hperm.
  - intros l1 l2 w Hl1 Hl2. apply Hcell; by rewrite Hperm.
Qed.

Lemma cells_tail l L : cells (l :: L) → cells L.
Proof.
  intros (Hall & Hnd & Hcell). split_and!.
  - intros line Hline. apply Hall. by right.
  - by apply NoDup_cons in Hnd as [_ ?].
  - intros l1 l2 w Hl1 Hl2. apply Hcell; by right.
Qed.

Lemma linked_Permutation (L L' : list (list word)) a b :
  L ≡ₚ L' → linked L a b → linked L' a b.
Proof. intros Hperm (l & Hl & Ha & Hb). exists l. by rewrite <- Hperm. Qed.

Lemma cell_included (out1 out2 : list (list word)) l1 l2 a :
  (∀ x y, x ≠ y → linked out1 x y → linked out2 x y) →
  cells out2 → l1 ∈ out1 → l2 ∈ out2 → a ∈ l1 → a ∈ l2 →
  ∀ w, w ∈ l1 → w ∈ l2.
Proof.
  intros Hlinks (_ & _ & Hcell) Hl1 Hl2 Ha1 Ha2 w Hw.
  destruct (decide (a = w)) as [<-|Hne]; [done|].
  destruct (Hlinks a w Hne) as (l & Hl & Ha & Hw'); [by exists l1|].
  by rewrite (Hcell l2 l a).
Qed.

Lemma tail_linked (l1 l2 : list word) (rest1 rest2 : list (list word)) x y :
  cells (l1 :: rest1) → (∀ w, w ∈ l2 → w ∈ l1) →
  linked rest1 x y → linked (l2 :: rest2) x y → linked rest2 x y.
Proof.
  intros (_ & Hnd & Hcell) Hsub (l & Hl & Hx & Hy) (l' & Hl' & Hx' & Hy').
  apply elem_of_cons in Hl' as [->|Hl']; [exfalso|by exists l'].
  apply NoDup_cons in Hnd as [Hnot _]. apply Hnot.
  rewrite <- (Hcell l l1 x); [done|by right|left|done|by apply Hsub].
Qed.

Lemma cells_same_partition out1 out2 :
  cells out1 → cells out2 →
  (∀ a b, a ≠ b → linked out1 a b ↔ linked out2 a b) →
  same_partition out1 out2.
Proof.
  revert out2. induction out1 as [|l1 rest1 IH]; intros out2 Hc1 Hc2 Hlinks.
  - destruct out2 as [|l2 rest2]; [by exists []|exfalso].
    destruct Hc2 as (Hall & _). destruct (Hall l2) as [Hlen Hnd]; [left|].
    destruct (line_two_words l2) as (a & b & Ha & Hb & Hne); [done..|].
    destruct (Hlinks a b Hne) as [_ Hback].
    destruct Hback as (l & Hl & _).
    + exists l2. split_and!; [left|done..].
    + by apply elem_of_nil in Hl.
  - pose proof Hc1 as (Hall1 & Hnd1 & Hcell1).
    destruct (Hall1 l1) as [Hlen Hnd]; [left|].
    destruct (line_two_words l1) as (a & b & Ha & Hb & Hne); [done..|].
    destruct (Hlinks a b Hne) as [(l2 & Hl2 & Ha2 & Hb2) _];
      [exists l1; split_and!; [left|done..]|].
    pose proof Hl2 as [rest2 Hperm]%elem_of_Permutation.
    pose proof (cells_Permutation _ _ Hperm Hc2) as Hc2'.
    assert (∀ w, w ∈ l1 ↔ w ∈ l2) as Hsame.
    { intros w. split.
      - apply (cell_included (l1 :: rest1) out2 l1 l2 a); [|done|left|done..].
        intros x y Hxy. by apply Hlinks.
      - apply (cell_included out2 (l1 :: rest1) l2 l1 a); [|done|done|left|done..].
        intros x y Hxy. by apply Hlinks. }
    destruct (IH rest2) as (rest2' & Hperm' & Hall2).
    + by eapply cells_tail.
    + by eapply cells_tail.
    + intros x y Hxy. split; intros Hl.
      * apply (tail_linked l1 l2 rest1 rest2 x y); [done|by intros w ?%Hsame|done|].
        eapply linked_Permutation; [done|]. apply Hlinks; [done|].
        destruct Hl as (l & ? & ?). exists l. split; [by right|done].
      * apply (tail_linked l2 l1 rest2 rest1 x y); [done|by intros w ?%Hsame|done|].
        apply Hlinks; [done|]. eapply linked_Permutation; [by symmetry|].
        destruct Hl as (l & ? & ?). exists l. split; [by right|done].
    + exists (l2 :: rest2'). split.
      * by rewrite Hperm, Hperm'.
      * constructor; [|done].
        destruct (proj1 Hc2 l2 Hl2) as [_ Hnd2].
        by apply NoDup_Permutation.
Qed.

(** Runs under two orders return the same partition. *)
Lemma consolidate_same_partition o1 o2 synonymsByLine :
  ∃ out1 out2,
    consolidate o1 synonymsByLine = Ok out1 ∧
    consolidate o2 synonymsByLine = Ok out2 ∧
    same_partition out1 out2.
Proof.
  destruct (consolidate_spec o1 synonymsByLine)
    as (out1 & _ & Hrun1 & _ & _ & Hconv1 & _).
  destruct (consolidate_spec o2 synonymsByLine)
    as (out2 & _ & Hrun2 & _ & _ & Hconv2 & _).
  exists out1, out2. split_and!; [done..|].
  apply cells_same_partition; [by apply converged_cells..|].
  intros a b Hne.
  rewrite (consolidate_components o1 synonymsByLine out1 a b) by done.
  by rewrite (consolidate_components o2 synonymsByLine out2 a b).
Qed.

(** ** Reachable states *)

Lemma reachable_located o input st : reachable o input st → located st.
Proof.
  induction 1 as [|st st' _ IH Hstep|st _ _ _ _];
    eauto using located_start, step_located.
Qed.

Lemma reachable_steps o input st st' :
  reachable o input st → rtc (step o) st st' → reachable o input st'.
Proof. intros Hst. induction 1; eauto using reachable_step. Qed.

(** A pass of [merge_loop] that starts in a reachable state ends in one, and
    so does the next pass when [changes] is set: the loop visits reachable
    states only. *)
Lemma reachable_pass o input synonymsByLine st :
  reachable o input (pass_start synonymsByLine) →
  pass o synonymsByLine = Ok st →
  reachable o input st ∧
  (changes st = true → reachable o input (pass_start (lines st))).
Proof.
  intros Hstart Hpass.
  destruct (pass_steps o synonymsByLine) as (st' & Hrun & Hsteps & Hend).
  assert (st' = st) as -> by congruence.
  assert (reachable o input st) as Hst by (by eapply reachable_steps).
  split; [done|]. intros Hch. by apply reachable_again.
Qed.

(** ** Extensions *)

Lemma endswith_csv_not_tsv filename :
  endswith filename ".tsv" = true → endswith filename ".csv" = false.
Proof.
  unfold endswith. simpl.
  intros [_ Htsv%String.eqb_eq]%andb_true_iff.
  apply andb_false_iff. right. rewrite Htsv. reflexivity.
Qed.

Lemma separator_of_None filename :
  endswith filename ".csv" = false → endswith filename ".tsv" = false →
  separator_of filename = None.
Proof. unfold separator_of. by intros -> ->. Qed.

(** * The claims *)

(** C1.  [group_synonyms] terminates on every list of lines, and its output
    lines are exactly the connected components, of two distinct words or
    more, of the hypergraph of the input lines: two distinct words share an
    output line if and only if a chain of input lines connects them; an
    output line is the whole component of each of its words; it holds no
    word twice and has two words or more; different output lines share no
    word; a word connected to no other word is in no output line. *)
Theorem group_synonyms_connected_components
    (o : SetOrder) (synonymsByLine : list (list word)) :
  ∃ out, consolidate o synonymsByLine = Ok out ∧
    (∀ a b, a ≠ b →
       (∃ line, line ∈ out ∧ a ∈ line ∧ b ∈ line) ↔
       (∃ chain, chain_between synonymsByLine a b chain)) ∧
    (∀ a b, connected synonymsByLine a b ↔
            ∃ chain, chain_between synonymsByLine a b chain) ∧
    (∀ line a, line ∈ out → a ∈ line →
       ∀ b, b ∈ line ↔ b = a ∨ connected synonymsByLine a b) ∧
    (∀ line, line ∈ out → NoDup line ∧ 2 ≤ length line) ∧
    (∀ i j l1 l2, i ≠ j → out !! i = Some l1 → out !! j = Some l2 →
       ∀ w, w ∈ l1 → w ∉ l2) ∧
    (∀ w, (∀ b, connected synonymsByLine w b → b = w) →
       ∀ line, line ∈ out → w ∉ line).
Proof.
  destruct (consolidate_spec o synonymsByLine)
    as (out & last & Hrun & _ & _ & Hconv & _).
  pose proof (consolidate_components o synonymsByLine out) as Hcomp.
  exists out. split; [done|]. split; [|split; [|split_and!]].
  - intros a b Hne. rewrite <- connected_chain. by apply Hcomp.
  - apply connected_chain.
  - intros line a Hline Ha b. split.
    + intros Hb. destruct (decide (b = a)) as [|Hne]; [by left|right].
      apply Hcomp; [done|congruence|]. by exists line.
    + intros [->|Hab]; [done|].
      destruct (decide (a = b)) as [<-|Hne]; [done|].
      apply Hcomp in Hab as (l & Hl & Ha' & Hb); [|done..].
      by rewrite (converged_same_line out line l a).
  - intros line Hline. by destruct Hconv as [Hall _], (Hall line Hline).
  - by destruct Hconv.
  - intros w Halone line Hline Hw.
    destruct Hconv as [Hall _], (Hall line Hline) as [Hlen Hnd].
    destruct (NoDup_other_word line w) as (b & Hb & Hne); [done..|].
    apply Hne, Halone, Hcomp; [done|congruence|]. by exists line.
Qed.

(** C2.  The lines that [group_synonyms] ends with satisfy the invariant
    after consolidation: every line has two distinct words or more, and two
    lines at different positions share no word. *)
Theorem group_synonyms_post_invariant
    (o : SetOrder) (synonymsByLine : list (list word)) :
  (∃ out, consolidate o synonymsByLine = Ok out ∧
     (∀ line, line ∈ out → 2 ≤ length (remove_dups line)) ∧
     (∀ i j l1 l2, i ≠ j → out !! i = Some l1 → out !! j = Some l2 →
        ∀ w, w ∈ l1 → w ∉ l2)) ∧
  (∀ ops (fs : gmap string (list string)) filename file_lines separator,
     fs !! filename = Some file_lines →
     separator_of filename = Some separator →
     ∃ out, group_synonyms ops o fs filename
              = (Ok (), <[filename := render separator out]> fs) ∧
       (∀ line, line ∈ out → 2 ≤ length (remove_dups line)) ∧
       (∀ i j l1 l2, i ≠ j → out !! i = Some l1 → out !! j = Some l2 →
          ∀ w, w ∈ l1 → w ∉ l2)).
Proof.
  assert (∀ L, ∃ out, consolidate o L = Ok out ∧
     (∀ line, line ∈ out → 2 ≤ length (remove_dups line)) ∧
     (∀ i j l1 l2, i ≠ j → out !! i = Some l1 → out !! j = Some l2 →
        ∀ w, w ∈ l1 → w ∉ l2)) as Hinv.
  { intros L. destruct (consolidate_spec o L)
      as (out & last & Hrun & _ & _ & [Hall Hpair] & _).
    exists out. split_and!; [done| |done].
    intros line Hline. destruct (Hall line Hline) as [Hlen Hnd].
    by rewrite remove_dups_NoDup_id. }
  split; [apply Hinv|].
  intros ops fs filename file_lines separator Hfile Hsep.
  destruct (Hinv (parse_line ops separator <$> file_lines))
    as (out & Hrun & Hlen & Hpair).
  exists out. split_and!; [|done..].
  unfold group_synonyms. by rewrite Hfile, Hsep, Hrun.
Qed.

(** C3.  The failure branch of [substitute_synonyms] is never taken: the run
    returns for every input.  And whenever, in a reachable state, the scan
    of the current line (a line that was not popped) meets a word of the
    processed set, the search of [substitute_synonyms] stops at a line
    before the current one, the first line of the list to hold the word:
    the current line is appended to it and then cleared, so none of its
    words is lost. *)
Theorem merge_target_is_earlier_line (o : SetOrder) (input : list (list word)) :
  (∃ out, consolidate o input = Ok out) ∧
  (∀ ops fs filename synonym,
     (group_synonyms ops o fs filename).1 ≠ Err (InternalConsistencyError synonym)) ∧
  ∀ st line synonym P,
    reachable o input st →
    lines st !! idx st = Some line →
    2 ≤ length line →
    scan_line (set_list o line) (processed st) = (Some synonym, P) →
    ∃ t target,
      list_find (λ l, synonym ∈ l) (<[idx st := set_list o line]> (lines st))
        = Some (t, target) ∧
      t < idx st ∧ lines st !! t = Some target ∧ synonym ∈ target ∧
      (∀ j l, j < t → lines st !! j = Some l → synonym ∉ l) ∧
      ∃ st', visit o st line = Ok st' ∧
             lines st' !! t = Some (target ++ set_list o line) ∧
             lines st' !! idx st = Some [].
Proof.
  split_and!.
  { destruct (consolidate_spec o input) as (out & _ & Hrun & _). by exists out. }
  { intros ops fs filename synonym. unfold group_synonyms.
    destruct (fs !! filename) as [file_lines|]; [|done].
    destruct (separator_of filename) as [separator|]; [|done].
    by destruct (consolidate_spec o (parse_line ops separator <$> file_lines))
      as (out & _ & -> & _). }
  intros st line synonym P Hreach Hline Hlen Hscan.
  pose proof (reachable_located _ _ _ Hreach) as Hloc.
  pose proof (lookup_lt_Some _ _ _ Hline) as Hi.
  destruct (visit_total o st line Hline) as [st' Hvisit].
  pose proof (visit_Ok _ _ _ _ Hvisit) as Hv.
  destruct Hv as [Hlt|P' _ Hscan'|synonym' P' t target _ Hscan' Hfind];
    [lia|congruence|].
  assert (synonym' = synonym) as -> by congruence.
  destruct (merge_target _ _ _ _ _ _ _ Hloc Hscan Hfind)
    as (Ht & Htarget & Hin & Hfirst).
  exists t, target. split_and!; [done..|].
  eexists. split; [done|]. simpl. rewrite !merged_lookup by done.
  rewrite decide_False, !decide_True by lia. done.
Qed.

(** A merge in a reachable state: the second line of the input meets a word
    of the first and is appended to it. *)
Lemma merge_target_is_earlier_line_witness :
  ∃ t target st',
    t < 1 ∧ [["a"; "b"]; ["b"; "c"]] !! t = Some target ∧ "b" ∈ target ∧
    visit order_kept
      {| lines := [["a"; "b"]; ["b"; "c"]]; processed := list_to_set ["a"; "b"];
         changes := false; idx := 1 |} ["b"; "c"] = Ok st' ∧
    lines st' !! t = Some (target ++ ["b"; "c"]).
Proof.
  destruct (merge_target_is_earlier_line order_kept [["a"; "b"]; ["b"; "c"]])
    as (_ & _ & Hmerge).
  destruct (Hmerge
              {| lines := [["a"; "b"]; ["b"; "c"]];
                 processed := list_to_set ["a"; "b"];
                 changes := false; idx := 1 |}
              ["b"; "c"] "b" (list_to_set ["a"; "b"]))
    as (t & target & _ & Ht & Htarget & Hin & _ & st' & Hvisit & Hres & _).
  - eapply reachable_step; [apply reachable_start|].
    exists ["a"; "b"]. split; vm_compute; reflexivity.
  - reflexivity.
  - simpl. lia.
  - vm_compute. reflexivity.
  - exists t, target, st'. split_and!; [exact Ht|exact Htarget|exact Hin|exact Hvisit|exact Hres].
Defined.

(** C4.  The [while] loop terminates: it makes a number [n] of passes, at
    least one and at most the weight of the input plus one; with fuel for
    [n] passes it returns, with less it is still running; and the last of
    the passes changes nothing. *)
Theorem merge_loop_terminates (o : SetOrder) (synonymsByLine : list (list word)) :
  ∃ n out last st,
    1 ≤ n ≤ S (measure synonymsByLine) ∧
    (∀ fuel, n ≤ fuel → merge_loop o fuel synonymsByLine = Ok out) ∧
    (∀ fuel, fuel < n → merge_loop o fuel synonymsByLine = Err OutOfFuel) ∧
    pass o last = Ok st ∧ changes st = false ∧ lines st = out.
Proof.
  destruct (merge_loop_passes o (measure synonymsByLine) synonymsByLine)
    as (n & out & last & st & Hn & Hok & Hout & Hpass & Hch & Hlines & _);
    [done|].
  by exists n, out, last, st.
Qed.

(** C5, as the code has it.  Run again on the lines it returned, under the
    same or another order of [list(set(line))], the loop returns after one
    pass: the same lines at the same positions, each passed through
    [list(set(line))] once more, hence with the same words in an order that
    may differ. *)
Theorem group_synonyms_second_run
    (o o' : SetOrder) (synonymsByLine : list (list word)) :
  ∃ out, consolidate o synonymsByLine = Ok out ∧
         consolidate o' out = Ok (set_list o' <$> out) ∧
         Forall2 (≡ₚ) (set_list o' <$> out) out.
Proof.
  destruct (consolidate_spec o synonymsByLine)
    as (out & _ & Hrun & _ & _ & Hconv & _).
  exists out. split_and!; [done| |].
  - destruct (pass_converged o' out Hconv) as [P HP].
    unfold consolidate. simpl. by rewrite HP.
  - apply Forall2_fmap_l, Forall_Forall2_diag, Forall_forall.
    intros line Hline. destruct Hconv as [Hall _].
    apply set_list_Permutation. by apply Hall.
Qed.

(** C5, as the claim states it, fails: with the words of a line returned
    backwards, the second run swaps the two words of the only line. *)
Lemma group_synonyms_not_idempotent :
  ¬ (∀ (o : SetOrder) (synonymsByLine out : list (list word)),
       consolidate o synonymsByLine = Ok out → consolidate o out = Ok out).
Proof.
  intros Hidem.
  specialize (Hidem order_reversed [["a"; "b"]] [["b"; "a"]]).
  assert (consolidate order_reversed [["b"; "a"]] = Ok [["a"; "b"]]) as Hsecond
    by (vm_compute; reflexivity).
  rewrite Hsecond in Hidem. discriminate Hidem. vm_compute. reflexivity.
Qed.

(** C6.  A word is in some output line exactly when some input line that
    holds it has two distinct words or more: a word is absent from the
    output exactly when every input line with it is empty or a singleton
    once its duplicates are removed. *)
Theorem group_synonyms_word_set (o : SetOrder) (synonymsByLine : list (list word)) :
  ∃ out, consolidate o synonymsByLine = Ok out ∧
    ∀ w, (∃ line, line ∈ out ∧ w ∈ line) ↔
         (∃ line, line ∈ synonymsByLine ∧ w ∈ line ∧
                  2 ≤ length (remove_dups line)).
Proof.
  destruct (consolidate_spec o synonymsByLine)
    as (out & last & Hrun & _ & _ & [Hall _] & _).
  pose proof (consolidate_components o synonymsByLine out) as Hcomp.
  exists out. split; [done|]. intros w. split.
  - intros (line & Hline & Hw). destruct (Hall line Hline) as [Hlen Hnd].
    destruct (NoDup_other_word line w) as (b & Hb & Hne); [done..|].
    assert (connected synonymsByLine w b) as Hconn.
    { apply Hcomp; [done|congruence|]. by exists line. }
    destruct (connected_first_link _ _ _ Hconn) as (l & c & Hl & Hwl & Hc & Hcw);
      [congruence|].
    exists l. split_and!; [done..|]. by apply (two_words_distinct l w c).
  - intros (l & Hl & Hw & Hlen).
    destruct (distinct_other_word l w) as (c & Hc & Hne); [done..|].
    assert (linked out w c) as (line & ? & ? & _); [|by exists line].
    apply (Hcomp w c); [done|congruence|]. apply tc_once. by exists l.
Qed.

(** C7, as the code has it.  A name that ends in [.csv] selects the comma
    and one that ends in [.tsv] the tab.  For any other name the call
    raises and writes nothing: the error of the refused extension when the
    file could be opened and read, which happens first, and the error of
    [open] when it could not. *)
Theorem group_synonyms_extension
    (ops : StrOps) (o : SetOrder) (fs : gmap string (list string))
    (filename : string) :
  (endswith filename ".csv" = true → separator_of filename = Some ","%char) ∧
  (endswith filename ".tsv" = true → separator_of filename = Some "009"%char) ∧
  (endswith filename ".csv" = false → endswith filename ".tsv" = false →
   group_synonyms ops o fs filename =
     match fs !! filename with
     | Some _ => (Err (UnsupportedFormatError filename), fs)
     | None => (Err (FileNotFoundError filename), fs)
     end).
Proof.
  split_and!.
  - unfold separator_of. by intros ->.
  - intros Htsv. unfold separator_of.
    by rewrite (endswith_csv_not_tsv _ Htsv), Htsv.
  - intros Hcsv Htsv. unfold group_synonyms.
    rewrite (separator_of_None _ Hcsv Htsv). by destruct (fs !! filename).
Qed.

Lemma group_synonyms_extension_witness :
  separator_of "sizes.csv" = Some ","%char ∧
  separator_of "sizes.tsv" = Some "009"%char ∧
  group_synonyms ascii_ops order_kept
    {[ "sizes.txt" := ["big,large" +:+ LF] ]} "sizes.txt"
  = (Err (UnsupportedFormatError "sizes.txt"),
     {[ "sizes.txt" := ["big,large" +:+ LF] ]}).
Proof.
  split_and!.
  - apply (group_synonyms_extension ascii_ops order_kept ∅ "sizes.csv").
    vm_compute. reflexivity.
  - apply (group_synonyms_extension ascii_ops order_kept ∅ "sizes.tsv").
    vm_compute. reflexivity.
  - destruct (group_synonyms_extension ascii_ops order_kept
                {[ "sizes.txt" := ["big,large" +:+ LF] ]} "sizes.txt")
      as (_ & _ & Hrefused).
    rewrite Hrefused; vm_compute; reflexivity.
Defined.

(** C7, as the claim states it, fails for a name with a refused extension
    that names no file: [open] raises before the extension is looked at. *)
Lemma unsupported_format_needs_file :
  ¬ (∀ (ops : StrOps) (o : SetOrder) (fs : gmap string (list string))
       (filename : string),
       endswith filename ".csv" = false → endswith filename ".tsv" = false →
       (group_synonyms ops o fs filename).1
       = Err (UnsupportedFormatError filename)).
Proof.
  intros Hclaim.
  specialize (Hclaim ascii_ops order_kept ∅ "notes.txt" eq_refl eq_refl).
  vm_compute in Hclaim. discriminate Hclaim.
Qed.

(** C8, as the code has it.  Two runs on the same files and the same name
    end the same way: both raise the same error and write nothing, or both
    return and write the same partition, the lines of one being the lines of
    the other in some order, each with its words in some order.  The order
    itself follows [list(set(line))]. *)
Theorem group_synonyms_same_partition
    (ops : StrOps) (o1 o2 : SetOrder) (fs : gmap string (list string))
    (filename : string) :
  (∃ e, group_synonyms ops o1 fs filename = (Err e, fs) ∧
        group_synonyms ops o2 fs filename = (Err e, fs)) ∨
  (∃ separator out1 out2,
     group_synonyms ops o1 fs filename
       = (Ok (), <[filename := render separator out1]> fs) ∧
     group_synonyms ops o2 fs filename
       = (Ok (), <[filename := render separator out2]> fs) ∧
     same_partition out1 out2).
Proof.
  unfold group_synonyms.
  destruct (fs !! filename) as [file_lines|]; [|left; by eexists].
  destruct (separator_of filename) as [separator|]; [|left; by eexists].
  destruct (consolidate_same_partition o1 o2
              (parse_line ops separator <$> file_lines))
    as (out1 & out2 & -> & -> & Hsame).
  right. by exists separator, out1, out2.
Qed.

(** C8, as the claim states it, fails: two runs on the same file that
    differ in the order of [list(set(line))] write different lines. *)
Lemma group_synonyms_order_dependent :
  ¬ (∀ (ops : StrOps) (o1 o2 : SetOrder) (fs : gmap string (list string))
       (filename : string),
       group_synonyms ops o1 fs filename = group_synonyms ops o2 fs filename).
Proof.
  intros Hclaim.
  specialize (Hclaim ascii_ops order_kept order_reversed
                {[ "pets.csv" := ["cat,feline" +:+ LF] ]} "pets.csv").
  apply (f_equal (λ r, r.2 !! "pets.csv")) in Hclaim.
  vm_compute in Hclaim. discriminate Hclaim.
Qed.

(** C9.  On a file of an accepted extension with no line, [group_synonyms]
    returns without an error and writes the file back with no line. *)
Theorem group_synonyms_empty_file
    (ops : StrOps) (o : SetOrder) (fs : gmap string (list string))
    (filename : string) :
  fs !! filename = Some [] →
  endswith filename ".csv" || endswith filename ".tsv" = true →
  group_synonyms ops o fs filename = (Ok (), <[filename := []]> fs).
Proof.
  intros Hfile Hext. unfold group_synonyms. rewrite Hfile.
  destruct (separator_of filename) as [separator|] eqn:Hsep; [done|].
  unfold separator_of in Hsep.
  destruct (endswith filename ".csv"); [done|].
  destruct (endswith filename ".tsv"); done.
Qed.

Lemma group_synonyms_empty_file_witness :
  group_synonyms ascii_ops order_kept {[ "empty.tsv" := [] ]} "empty.tsv"
  = (Ok (), <[ "empty.tsv" := [] ]> {[ "empty.tsv" := [] ]}).
Proof.
  apply (group_synonyms_empty_file ascii_ops order_kept
           {[ "empty.tsv" := [] ]} "empty.tsv");
    vm_compute; reflexivity.
Defined.

(** C10.  A line that begins with the comment prefix [//] is consolidated
    like every other line.  The loop runs on the parse of every line of the
    file, none left out.  Two distinct tokens of the comment line (the
    stripped, lowercased line split at the separator) end in one output
    line, which holds every word connected to them through any line of the
    file.  And a token of a comment line with fewer than two distinct
    tokens is written only if some line of the file with two distinct
    tokens or more holds it. *)
Theorem group_synonyms_comment_line
    (ops : StrOps) (o : SetOrder) (fs : gmap string (list string))
    (filename : string) (file_lines : list string) (separator : ascii)
    (line : string) :
  fs !! filename = Some file_lines →
  separator_of filename = Some separator →
  line ∈ file_lines →
  startswith line COMMENT_CHARS = true →
  let tokens := split separator (str_lower ops (str_strip ops line)) in
  let synonymsByLine := parse_line ops separator <$> file_lines in
  ∃ out,
    consolidate o synonymsByLine = Ok out ∧
    group_synonyms ops o fs filename
      = (Ok (), <[filename := render separator out]> fs) ∧
    tokens ∈ synonymsByLine ∧
    (∀ a b, a ∈ tokens → b ∈ tokens → a ≠ b →
       ∃ out_line, out_line ∈ out ∧ a ∈ out_line ∧ b ∈ out_line ∧
                   ∀ c, connected synonymsByLine a c → c ∈ out_line) ∧
    (length (remove_dups tokens) < 2 →
     ∀ w, w ∈ tokens →
       (∃ out_line, out_line ∈ out ∧ w ∈ out_line) ↔
       (∃ other, other ∈ file_lines ∧ w ∈ parse_line ops separator other ∧
                 2 ≤ length (remove_dups (parse_line ops separator other)))).
Proof.
  intros Hfile Hsep Hline _ tokens synonymsByLine.
  destruct (group_synonyms_writes ops o fs filename file_lines separator)
    as (out & Hrun & Hgroup); [done..|].
  assert (tokens ∈ synonymsByLine) as Htokens
    by (by apply (list_elem_of_fmap_2 (parse_line ops separator))).
  destruct (consolidate_spec o synonymsByLine)
    as (out' & _ & Hrun' & _ & _ & Hconv & _).
  assert (out' = out) as -> by (fold synonymsByLine in Hrun; congruence).
  pose proof (consolidate_components o synonymsByLine out) as Hcomp.
  exists out. split_and!; [done..| |].
  - intros a b Ha Hb Hne.
    assert (linked out a b) as (out_line & Hout & Ha' & Hb').
    { apply Hcomp; [done..|]. apply tc_once. by exists tokens. }
    exists out_line. split_and!; [done..|]. intros c Hc.
    destruct (decide (a = c)) as [<-|Hac]; [done|].
    apply Hcomp in Hc as (l & Hl & Hal & Hcl); [|done..].
    by rewrite (converged_same_line out out_line l a).
  - intros _ w Hw. split.
    + intros (out_line & Hout & Hwo).
      destruct Hconv as [Hall _]. destruct (Hall out_line Hout) as [Hlen Hnd].
      destruct (NoDup_other_word out_line w) as (b & Hb & Hne); [done..|].
      assert (connected synonymsByLine w b) as Hconn.
      { apply Hcomp; [done|congruence|]. by exists out_line. }
      destruct (connected_first_link _ _ _ Hconn)
        as (l & c & Hl & Hwl & Hc & Hcw); [congruence|].
      apply list_elem_of_fmap in Hl as (other & -> & Hother).
      exists other. split_and!; [done..|].
      by apply (two_words_distinct _ w c).
    + intros (other & Hother & Hwo & Hlen).
      destruct (distinct_other_word _ w Hwo Hlen) as (c & Hc & Hne).
      assert (linked out w c) as (out_line & ? & ? & _); [|by exists out_line].
      apply Hcomp; [done|congruence|]. apply tc_once.
      exists (parse_line ops separator other).
      split; [by apply list_elem_of_fmap_2|done].
Qed.

Lemma group_synonyms_comment_line_witness :
  let fs : gmap string (list string) :=
    {[ "notes.csv" := ["//Note,x" +:+ LF; "x,y" +:+ LF] ]} in
  ∃ out out_line,
    group_synonyms ascii_ops order_kept fs "notes.csv"
      = (Ok (), <["notes.csv" := render ","%char out]> fs) ∧
    out_line ∈ out ∧ "//note" ∈ out_line ∧ "x" ∈ out_line ∧ "y" ∈ out_line.
Proof.
  intros fs.
  destruct (group_synonyms_comment_line ascii_ops order_kept fs "notes.csv"
              ["//Note,x" +:+ LF; "x,y" +:+ LF] ","%char ("//Note,x" +:+ LF))
    as (out & _ & Hgroup & _ & Hpair & _).
  - vm_compute. reflexivity.
  - vm_compute. reflexivity.
  - left.
  - vm_compute. reflexivity.
  - destruct (Hpair "//note" "x") as (out_line & Hout & Ha & Hb & Hall).
    + vm_compute. left.
    + vm_compute. right. left.
    + discriminate.
    + exists out, out_line. split_and!; [done..|].
      apply Hall, tc_l with "x"; [|apply tc_once].
      * exists ["//note"; "x"]. split_and!; [left|left|right; left].
      * exists ["x"; "y"]. split_and!; [right; left|left|right; left].
Defined.

(** ** The scenarios of the specification *)

Example scenario_merge :
  group_synonyms ascii_ops order_kept
    {[ "animals.csv" :=
         ["cat,feline" +:+ LF; "dog,canine" +:+ LF; "feline,animal"] ]}
    "animals.csv"
  = (Ok (), {[ "animals.csv" :=
                 ["cat,feline,animal" +:+ LF; "dog,canine" +:+ LF] ]}).
Proof. vm_compute. reflexivity. Qed.

Example scenario_singleton :
  group_synonyms ascii_ops order_kept
    {[ "words.tsv" := ["lonely" +:+ LF] ]} "words.tsv"
  = (Ok (), {[ "words.tsv" := [] ]}).
Proof. vm_compute. reflexivity. Qed.

Example scenario_duplicate_line :
  group_synonyms ascii_ops order_kept
    {[ "sizes.csv" := ["big,large" +:+ LF; "big,large"] ]} "sizes.csv"
  = (Ok (), {[ "sizes.csv" := ["big,large" +:+ LF] ]}).
Proof. vm_compute. reflexivity. Qed.

(** The order of the output lines follows the order of [list(set(line))]
    as well. *)
Example line_order_depends_on_set_order :
  consolidate order_kept
    [["z"]; ["c"]; ["x"; "y"]; ["a"; "b"]; ["c"; "d"]; ["b"; "c"]]
  = Ok [["x"; "y"]; ["a"; "b"; "c"; "d"]] ∧
  consolidate order_reversed
    [["z"]; ["c"]; ["x"; "y"]; ["a"; "b"]; ["c"; "d"]; ["b"; "c"]]
  = Ok [["d"; "c"; "b"; "a"]; ["y"; "x"]].
Proof. split; vm_compute; reflexivity. Qed.

(** Read back from the file, a token that ends a written line loses its
    trailing blanks to [strip]: the second run sees another word. *)
Example second_run_strips_last_token :
  let fs : gmap string (list string) := {[ "w.csv" := ["a ,x" +:+ LF] ]} in
  let fs1 := (group_synonyms ascii_ops order_reversed fs "w.csv").2 in
  let fs2 := (group_synonyms ascii_ops order_reversed fs1 "w.csv").2 in
  fs1 !! "w.csv" = Some ["x,a " +:+ LF] ∧ fs2 !! "w.csv" = Some ["a,x" +:+ LF].
Proof. split; vm_compute; reflexivity. Qed.

(** * Further properties of the code *)

(** ** [substitute_synonyms] on its own *)


Lemma concat_insert (L : list (list word)) i x y :
  L !! i = Some x → concat (<[i:=y]> L) ++ x ≡ₚ concat L ++ y.
Proof.
  revert i. induction L as [|l L IH]; intros [|i] Hi; simplify_eq/=.
  - rewrite (comm (++) (y ++ concat L) x), (comm (++) y (concat L)).
    by rewrite (assoc_L (++)).
  - rewrite <- !(assoc_L (++)). by rewrite IH.
Qed.

Lemma concat_delete (L : list (list word)) i x :
  L !! i = Some x → concat (delete i L) ++ x ≡ₚ concat L.
Proof.
  revert i. induction L as [|l L IH]; intros [|i] Hi; simplify_eq/=.
  - apply (comm (++)).
  - rewrite <- (assoc_L (++)). by rewrite IH.
Qed.

(** X2.  When [substitute_synonyms] finds the word, the line found grows by
    the group and the line at the group's index becomes empty.  If the two
    are different lines every occurrence of every word is kept; if the line
    found is the one at the group's index, that line is emptied all the
    same and exactly its words are lost. *)
Theorem substitute_synonyms_words
    (synonymsByLine : list (list word)) (synonym : word)
    (group : list word) (index t : nat) (target : list word) :
  list_find (λ line, synonym ∈ line) synonymsByLine = Some (t, target) →
  synonymsByLine !! index = Some group →
  ∃ merged,
    substitute_synonyms synonymsByLine synonym group index = Ok merged ∧
    merged !! index = Some [] ∧
    (t ≠ index → merged !! t = Some (target ++ group)) ∧
    (∀ j, j ≠ t → j ≠ index → merged !! j = synonymsByLine !! j) ∧
    concat merged ++ (if decide (t = index) then group else [])
      ≡ₚ concat synonymsByLine.
Proof.
  intros Hfind Hgroup. unfold substitute_synonyms. rewrite Hfind.
  apply list_find_Some in Hfind as (Ht & _ & _).
  pose proof (lookup_lt_Some _ _ _ Ht) as Hlt.
  pose proof (lookup_lt_Some _ _ _ Hgroup) as Hli.
  eexists. split; [done|]. split_and!.
  - rewrite list_lookup_insert_eq; [done|]. by rewrite length_insert.
  - intros Hne. rewrite list_lookup_insert_ne by done.
    by rewrite list_lookup_insert_eq.
  - intros j Hjt Hji. by rewrite !list_lookup_insert_ne.
  - destruct (decide (t = index)) as [->|Hne].
    + rewrite list_insert_insert_eq.
      rewrite (concat_insert _ _ _ [] Hgroup). by rewrite app_nil_r.
    + rewrite app_nil_r.
      pose proof (concat_insert _ _ _ (target ++ group) Ht) as H1.
      assert (<[t := target ++ group]> synonymsByLine !! index = Some group)
        as Hgroup' by (by rewrite list_lookup_insert_ne).
      pose proof (concat_insert _ _ _ [] Hgroup') as H2.
      rewrite app_nil_r in H2.
      apply (inj (.++ (group ++ target))).
      rewrite (assoc_L (++)), H2, H1.
      f_equiv. apply (comm (++)).
Qed.

Lemma substitute_synonyms_words_witness :
  ∃ merged,
    substitute_synonyms [["a"; "b"]; ["c"]; ["b"; "d"]] "b" ["b"; "d"] 2
      = Ok merged ∧
    concat merged ≡ₚ ["a"; "b"; "c"; "b"; "d"].
Proof.
  destruct (substitute_synonyms_words [["a"; "b"]; ["c"]; ["b"; "d"]] "b"
              ["b"; "d"] 2 0 ["a"; "b"])
    as (merged & Hrun & _ & _ & _ & Hperm).
  - vm_compute. reflexivity.
  - reflexivity.
  - exists merged. split; [exact Hrun|].
    rewrite <- Hperm. simpl. by rewrite app_nil_r.
Defined.

(** ** The inner loops *)

Lemma scan_line_split line P synonym P' :
  scan_line line P = (Some synonym, P') →
  ∃ before after,
    line = before ++ synonym :: after ∧
    NoDup before ∧ (∀ w, w ∈ before → w ∉ P) ∧
    (synonym ∈ P ∨ synonym ∈ before) ∧
    P' = list_to_set before ∪ P.
Proof.
  revert P. induction line as [|w line IH]; simpl; intros P Hscan; [done|].
  destruct (decide (w ∈ P)) as [Hin|Hnot].
  - inversion Hscan; subst. exists [], line.
    split_and!; [done|constructor|by intros ? ?%elem_of_nil|by left|set_solver].
  - apply IH in Hscan as (before & after & -> & Hnd & Hfresh & Hwhy & ->).
    exists (w :: before), after. split_and!; [done| | | |set_solver].
    + apply NoDup_cons. split; [|done].
      intros Hw. specialize (Hfresh w Hw). set_solver.
    + intros x [->|Hx]%elem_of_cons; [done|].
      specialize (Hfresh x Hx). set_solver.
    + destruct Hwhy as [Hwhy|Hwhy]; [|right; by right].
      apply elem_of_union in Hwhy as [->%elem_of_singleton|?];
        [right; left|by left].
Qed.

(** X3.  The loop over the words of a line (lines 67 to 73) runs to the end
    exactly when the line repeats no word and holds no processed word, and
    it has then added every word of the line.  Otherwise it stops at the
    first word that is processed or repeats an earlier word of the line,
    having added the words before it and no other. *)
Theorem scan_line_spec (line : list word) (processedSynonyms : gset word) :
  (∀ P', scan_line line processedSynonyms = (None, P') ↔
         NoDup line ∧ (∀ w, w ∈ line → w ∉ processedSynonyms) ∧
         P' = list_to_set line ∪ processedSynonyms) ∧
  (∀ synonym P', scan_line line processedSynonyms = (Some synonym, P') ↔
     ∃ before after,
       line = before ++ synonym :: after ∧
       NoDup before ∧ (∀ w, w ∈ before → w ∉ processedSynonyms) ∧
       (synonym ∈ processedSynonyms ∨ synonym ∈ before) ∧
       P' = list_to_set before ∪ processedSynonyms).
Proof.
  split.
  - intros P'. split.
    + intros Hscan. pose proof Hscan as [-> Hfresh]%scan_line_None.
      split_and!; [|done..].
      revert processedSynonyms Hscan Hfresh.
      induction line as [|w line IH]; simpl; intros P Hscan Hfresh;
        [constructor|].
      destruct (decide (w ∈ P)); [done|].
      pose proof Hscan as [_ Hfresh']%scan_line_None.
      apply NoDup_cons. split.
      * intros Hw. specialize (Hfresh' w Hw). set_solver.
      * apply (IH ({[w]} ∪ P)); [|done].
        rewrite Hscan. f_equal. set_solver.
    + intros (Hnd & Hfresh & ->). by apply scan_line_fresh.
  - intros synonym P'. split; [apply scan_line_split|].
    intros (before & after & -> & Hnd & Hfresh & Hwhy & ->).
    revert processedSynonyms Hfresh Hwhy.
    induction before as [|w before IH]; simpl; intros P Hfresh Hwhy.
    + destruct Hwhy as [Hin|Hin]; [|by apply elem_of_nil in Hin].
      rewrite decide_True by done. f_equal. set_solver.
    + apply NoDup_cons in Hnd as [Hw Hnd].
      rewrite decide_False by (apply Hfresh; left).
      rewrite (IH Hnd ({[w]} ∪ P)).
      * f_equal. set_solver.
      * intros x Hx. specialize (Hfresh x ltac:(by right)).
        assert (x ≠ w) by (by intros ->). set_solver.
      * destruct Hwhy as [?|[->|?]%elem_of_cons]; set_solver.
Qed.

(** ** What a run keeps *)

Lemma remove_dups_submseteq (line : list word) : remove_dups line ⊆+ line.
Proof.
  induction line as [|w line IH]; simpl; [done|].
  destruct (decide_rel _ w line).
  - by apply submseteq_cons.
  - by apply submseteq_skip.
Qed.

Lemma visited_words o st line st' :
  lines st !! idx st = Some line →
  located st → visited o st line st' →
  concat (lines st') ⊆+ concat (lines st).
Proof.
  intros Hline Hloc Hv. pose proof (lookup_lt_Some _ _ _ Hline) as Hi.
  destruct Hv as [Hlt|P Hge Hscan|synonym P t target Hge Hscan Hfind]; simpl.
  - rewrite <- (concat_delete _ _ _ Hline). by apply submseteq_inserts_r.
  - apply (submseteq_app_inv_r _ _ line).
    rewrite (concat_insert _ _ _ (set_list o line) Hline).
    apply submseteq_skips_l.
    rewrite (set_list_perm o line). apply remove_dups_submseteq.
  - destruct (merge_target _ _ _ _ _ _ _ Hloc Hscan Hfind)
      as (Ht & Htarget & Hin & _).
    set (line' := set_list o line) in *.
    set (L1 := <[idx st := line']> (lines st)) in *.
    assert (L1 !! idx st = Some line') as Hi1
      by (unfold L1; by rewrite list_lookup_insert_eq).
    destruct (substitute_synonyms_words L1 synonym line' (idx st) t target)
      as (merged & Hrun & _ & _ & _ & Hperm); [done..|].
    unfold substitute_synonyms in Hrun. rewrite Hfind in Hrun.
    injection Hrun as <-.
    rewrite decide_False, app_nil_r in Hperm by lia. rewrite Hperm.
    apply (submseteq_app_inv_r _ _ line). unfold L1.
    rewrite (concat_insert _ _ _ line' Hline).
    apply submseteq_skips_l. unfold line'.
    rewrite (set_list_perm o line). apply remove_dups_submseteq.
Qed.

Lemma steps_words o st st' :
  rtc (step o) st st' → located st →
  length (lines st') ≤ length (lines st) ∧
  concat (lines st') ⊆+ concat (lines st).
Proof.
  induction 1 as [st|st st1 st' Hstep _ IH]; intros Hloc; [done|].
  pose proof (step_located _ _ _ Hloc Hstep) as Hloc1.
  destruct (step_shape _ _ _ Hstep) as [_ Hlen].
  destruct Hstep as (line & Hline & Hv%visit_Ok).
  destruct (IH Hloc1) as [Hlen' Hsub]. split; [lia|].
  etrans; [done|]. by eapply visited_words.
Qed.

Lemma merge_loop_words o fuel synonymsByLine out :
  merge_loop o fuel synonymsByLine = Ok out →
  length out ≤ length synonymsByLine ∧ concat out ⊆+ concat synonymsByLine.
Proof.
  revert synonymsByLine. induction fuel as [|fuel IH]; intros L; [done|].
  simpl. destruct (pass_steps o L) as (st & -> & Hsteps & _). simpl.
  destruct (steps_words _ _ _ Hsteps (located_start L)) as [Hlen Hsub].
  simpl in Hlen, Hsub.
  destruct (changes st).
  - intros [Hlen' Hsub']%IH. split; [lia|by etrans].
  - by intros [= <-].
Qed.

(** X4.  A run never adds a line and never adds an occurrence of a word:
    the output has at most as many lines as the input, and its words, each
    counted as often as it occurs, are among those of the input; no word
    occurs twice in the whole output. *)
Theorem group_synonyms_never_grows
    (o : SetOrder) (synonymsByLine : list (list word)) :
  ∃ out, consolidate o synonymsByLine = Ok out ∧
         length out ≤ length synonymsByLine ∧
         concat out ⊆+ concat synonymsByLine ∧
         NoDup (concat out).
Proof.
  destruct (consolidate_spec o synonymsByLine)
    as (out & _ & Hrun & _ & _ & Hconv & _).
  destruct (merge_loop_words _ _ _ _ Hrun) as [Hlen Hsub].
  exists out. split_and!; [done..|].
  apply converged_settled in Hconv. clear Hrun Hlen Hsub.
  assert (∀ P rest, settled_from P rest →
            NoDup (concat rest) ∧ ∀ w, w ∈ concat rest → w ∉ P) as Hgen.
  { intros P rest. revert P. induction rest as [|line rest IH]; intros P; simpl.
    - intros _. split; [constructor|]. by intros ? ?%elem_of_nil.
    - intros (_ & Hnd & Hfresh & [Hnd' Hfresh']%IH). split.
      + apply NoDup_app. split_and!; [done| |done].
        intros w Hw Hw'. specialize (Hfresh' w Hw'). set_solver.
      + intros w [Hw|Hw]%elem_of_app; [by apply Hfresh|].
        specialize (Hfresh' w Hw). set_solver. }
  by destruct (Hgen ∅ out Hconv).
Qed.

(** X5.  The loop stops after its first pass exactly when its input already
    satisfies the invariant (every line with two words or more, no word
    twice in a line, no word in two lines); the output is then the input
    with each line passed through [list(set(line))]. *)
Theorem merge_loop_single_pass
    (o : SetOrder) (synonymsByLine out : list (list word)) :
  merge_loop o 1 synonymsByLine = Ok out ↔
  converged synonymsByLine ∧ out = set_list o <$> synonymsByLine.
Proof.
  simpl. split.
  - destruct (pass o synonymsByLine) as [st|e] eqn:Hpass; [|done]. simpl.
    destruct (changes st) eqn:Hch; [done|]. intros [= <-].
    by destruct (pass_unchanged _ _ _ Hpass Hch).
  - intros [Hconv ->]. destruct (pass_converged o _ Hconv) as [P ->]. done.
Qed.

(** ** The line after a popped line *)

Lemma visited_behind o st line st' j l :
  lines st !! idx st = Some line →
  located st → visited o st line st' →
  j < idx st → lines st !! j = Some l →
  ∃ extra, lines st' !! j = Some (l ++ extra).
Proof.
  intros Hline Hloc Hv Hj Hl. pose proof (lookup_lt_Some _ _ _ Hline) as Hi.
  destruct Hv as [Hlt|P Hge Hscan|synonym P t target Hge Hscan Hfind]; simpl.
  - exists []. by rewrite app_nil_r, list_lookup_delete_lt.
  - exists []. by rewrite app_nil_r, list_lookup_insert_ne by lia.
  - destruct (merge_target _ _ _ _ _ _ _ Hloc Hscan Hfind)
      as (Ht & Htarget & _).
    rewrite merged_lookup by done. rewrite decide_False by lia.
    destruct (decide (j = t)) as [->|Hne].
    + exists (set_list o line). congruence.
    + exists []. by rewrite app_nil_r.
Qed.

Lemma steps_behind o st st' j l :
  rtc (step o) st st' → located st →
  j < idx st → lines st !! j = Some l →
  ∃ extra, lines st' !! j = Some (l ++ extra).
Proof.
  intros Hsteps. revert l.
  induction Hsteps as [st|st st1 st' Hstep _ IH]; intros l Hloc Hj Hl.
  - exists []. by rewrite app_nil_r.
  - pose proof (step_located _ _ _ Hloc Hstep) as Hloc1.
    destruct (step_shape _ _ _ Hstep) as [Hidx _].
    destruct Hstep as (line & Hline & Hv%visit_Ok).
    destruct (visited_behind _ _ _ _ _ _ Hline Hloc Hv Hj Hl) as [e1 He1].
    destruct (IH _ Hloc1 ltac:(lia) He1) as [e2 He2].
    exists (e1 ++ e2). by rewrite (assoc_L (++)).
Qed.

Lemma pass_loop_Ok_steps o fuel st st' :
  pass_loop o fuel st = Ok st' → rtc (step o) st st'.
Proof.
  revert st. induction fuel as [|fuel IH]; intros st; simpl;
    destruct (lines st !! idx st) as [line|] eqn:Hline;
    try done; try (by intros [= <-]).
  destruct (visit o st line) as [st1|e] eqn:Hvisit; [|done]. simpl.
  intros Hrun%IH. eapply rtc_l; [by exists line|done].
Qed.

(** X6.  Popping a line while the list is iterated makes the iterator step
    over the line that follows: in a pass, when the line under the iterator
    has fewer than two words, the line after it takes its place and is not
    examined in that pass.  At the end of the pass it is still there, with
    its words as they were (duplicates included), followed at most by the
    words of lines merged into it. *)
Theorem pop_steps_over_next_line
    (o : SetOrder) (input : list (list word)) (fuel : nat)
    (st st_end : state) (short next : list word) :
  reachable o input st →
  lines st !! idx st = Some short →
  length short < 2 →
  lines st !! S (idx st) = Some next →
  pass_loop o fuel st = Ok st_end →
  ∃ extra, lines st_end !! idx st = Some (next ++ extra).
Proof.
  intros Hreach Hshort Hlen Hnext Hrun.
  pose proof (reachable_located _ _ _ Hreach) as Hloc.
  destruct fuel as [|fuel]; simpl in Hrun; rewrite Hshort in Hrun; [done|].
  destruct (visit o st short) as [st1|e] eqn:Hvisit; [|done]. simpl in Hrun.
  assert (step o st st1) as Hstep by (by exists short).
  pose proof (step_located _ _ _ Hloc Hstep) as Hloc1.
  unfold visit in Hvisit. rewrite decide_True in Hvisit by done.
  injection Hvisit as <-.
  apply (steps_behind _ _ _ (idx st) next (pass_loop_Ok_steps _ _ _ _ Hrun) Hloc1);
    simpl; [lia|].
  by rewrite list_lookup_delete_ge.
Qed.

Lemma pop_steps_over_next_line_witness :
  ∃ st_end extra,
    pass order_kept [["x"]; ["lonely"]; ["a"; "b"]] = Ok st_end ∧
    lines st_end !! 0 = Some (["lonely"] ++ extra).
Proof.
  exists {| lines := [["lonely"]; ["a"; "b"]]; processed := list_to_set ["a"; "b"];
            changes := true; idx := 2 |}.
  destruct (pop_steps_over_next_line order_kept [["x"]; ["lonely"]; ["a"; "b"]] 3
              (pass_start [["x"]; ["lonely"]; ["a"; "b"]])
              {| lines := [["lonely"]; ["a"; "b"]];
                 processed := list_to_set ["a"; "b"];
                 changes := true; idx := 2 |}
              ["x"] ["lonely"]) as [extra Hextra].
  - apply reachable_start.
  - reflexivity.
  - simpl. lia.
  - reflexivity.
  - vm_compute. reflexivity.
  - exists extra. split; [vm_compute; reflexivity|exact Hextra].
Defined.

(** ** Written lines split back *)





Lemma split_nonempty separator s : split separator s ≠ [].
Proof.
  destruct s as [|c s]; simpl; [done|].
  destruct (bool_decide (c = separator)); [done|].
  by destruct (split separator s).
Qed.

(** [join] undoes [split], whatever the text. *)
Lemma join_split separator s : join separator (split separator s) = s.
Proof.
  induction s as [|c s IH]; simpl; [done|].
  pose proof (split_nonempty separator s) as Hne.
  destruct (split separator s) as [|token tokens]; [done|].
  destruct (bool_decide (c = separator)) eqn:Hc.
  - apply bool_decide_eq_true in Hc as ->.
    change (join separator (EmptyString :: token :: tokens))
      with (String separator (join separator (token :: tokens))).
    by rewrite IH.
  - rewrite <- IH. by destruct tokens.
Qed.

Lemma elem_of_concat {A} (L : list (list A)) w :
  w ∈ concat L ↔ ∃ line, w ∈ line ∧ line ∈ L.
Proof.
  induction L as [|l L IH]; simpl.
  - split; [by intros ?%elem_of_nil|]. by intros (? & _ & ?%elem_of_nil).
  - rewrite elem_of_app, IH. split.
    + intros [Hw|(line & Hw & Hline)]; [exists l; split; [done|left]|].
      exists line. split; [done|by right].
    + intros (line & Hw & [->|Hline]%elem_of_cons); [by left|right; eauto].
Qed.



(** ** The loop over the directory *)







(** ** [get_synonyms] *)

Section DatamuseFacts.
Context {json query : Type} (greater : json → Z → option bool).
Context (api : query → fetch_error + list (gmap string json)).

Lemma select_word_inr min_score item r :
  select_word greater min_score item = inr r →
  well_formed greater min_score item ∧
  r = (if decide (qualifies greater min_score item)
       then item !! "word" else None) ∧
  (qualifies greater min_score item → is_Some (item !! "word")).
Proof.
  unfold select_word. intros Hsel.
  destruct (decide (qualifies greater min_score item)) as [Hq|Hq];
    unfold qualifies, well_formed in *;
    destruct (item !! "score") as [score|]; simpl in *; try done.
  - rewrite Hq in Hsel. destruct (item !! "word") as [w|]; [|done].
    injection Hsel as <-. split_and!; [|done|by eexists].
    intros ? [= <-]. exists true. split; [done|]. by eexists.
  - destruct (greater score min_score) as [[|]|] eqn:Hg; [done| |done].
    injection Hsel as <-. split_and!; [|done..].
    intros ? [= <-]. by exists false.
  - injection Hsel as <-. by split_and!.
Qed.

Lemma select_word_well_formed min_score item :
  well_formed greater min_score item →
  ∃ r, select_word greater min_score item = inr r.
Proof.
  unfold select_word, well_formed. intros Hwf.
  destruct (item !! "score") as [score|]; [|by eexists].
  destruct (Hwf score eq_refl) as (b & -> & Hword).
  destruct b; [|by eexists]. destruct (Hword eq_refl) as [w ->]. by eexists.
Qed.

Lemma filter_synonyms_inr min_score data ws :
  filter_synonyms greater min_score data = inr ws →
  Forall (well_formed greater min_score) data ∧
  ws = omap (λ item, item !! "word")
         (filter (qualifies greater min_score) data).
Proof.
  revert ws. induction data as [|item data IH]; simpl; intros ws.
  - intros [= <-]. by split.
  - destruct (select_word greater min_score item) as [e|r] eqn:Hsel; [done|].
    apply select_word_inr in Hsel as (Hwf & -> & Hword).
    rewrite filter_cons.
    destruct (decide (qualifies greater min_score item)) as [Hq|Hq].
    + destruct (Hword Hq) as [w Hw]. rewrite Hw.
      destruct (filter_synonyms greater min_score data) as [e|ws'];
        [done|].
      intros [= <-]. destruct (IH ws' eq_refl) as [Hall ->].
      split; [by constructor|]. simpl. by rewrite Hw.
    + intros [Hall ->]%IH. split; [by constructor|done].
Qed.

Lemma filter_synonyms_well_formed min_score data :
  Forall (well_formed greater min_score) data →
  ∃ ws, filter_synonyms greater min_score data = inr ws.
Proof.
  induction 1 as [|item data Hwf _ [ws IH]]; simpl; [by eexists|].
  destruct (select_word_well_formed _ _ Hwf) as [[w|] ->]; rewrite IH;
    by eexists.
Qed.

Lemma slice_to_length {A} (l : list A) stop :
  (0 ≤ stop)%Z → length (slice_to l stop) ≤ Z.to_nat stop.
Proof.
  intros Hstop. unfold slice_to. rewrite decide_True by done.
  rewrite length_take. lia.
Qed.

Lemma slice_to_sublist {A} (l : list A) stop : slice_to l stop `sublist_of` l.
Proof. unfold slice_to. destruct (decide _); apply sublist_take. Qed.

Lemma omap_filter_sublist {A B} (f : A → option B) (P : A → Prop)
    `{∀ x, Decision (P x)} (l : list A) :
  omap f (filter P l) `sublist_of` omap f l.
Proof.
  induction l as [|x l IH]; simpl; [done|]. rewrite filter_cons.
  destruct (decide (P x)); simpl.
  - destruct (f x); [by apply sublist_skip|done].
  - destruct (f x); [by apply sublist_cons|done].
Qed.

(** X10.  When [get_synonyms] returns, it returns the words of the items
    whose score is greater than [min_score], in the order of the response,
    cut by the slice [[:max_results]]: a sublist of the words of the
    response, of at most [max_results] words when that number is not
    negative. *)
Theorem get_synonyms_result
    (word : query) (min_score max_results : Z) (ws : list json) :
  get_synonyms greater api word min_score max_results = inr ws →
  ∃ data,
    api word = inr data ∧
    ws = slice_to (omap (λ item, item !! "word")
                     (filter (qualifies greater min_score) data)) max_results ∧
    ws `sublist_of` omap (λ item, item !! "word") data ∧
    ((0 ≤ max_results)%Z → length ws ≤ Z.to_nat max_results).
Proof.
  unfold get_synonyms. destruct (api word) as [e|data]; [done|].
  destruct (filter_synonyms greater min_score data) as [e|filtered] eqn:Hf;
    [done|].
  intros [= <-]. apply filter_synonyms_inr in Hf as [_ ->].
  exists data. split_and!; [done..| |apply slice_to_length].
  etrans; [apply slice_to_sublist|apply omap_filter_sublist].
Qed.

(** X11.  Whether [get_synonyms] returns or raises does not depend on
    [max_results]: the whole response is filtered before it is cut.  The
    call returns exactly when the request succeeds and every item of the
    response, also one beyond the first [max_results], either has no score
    or has a score that compares with [min_score] and, when greater, a
    word. *)
Theorem get_synonyms_returns_iff (word : query) (min_score max_results : Z) :
  (∃ ws, get_synonyms greater api word min_score max_results = inr ws) ↔
  ∃ data, api word = inr data ∧ Forall (well_formed greater min_score) data.
Proof.
  unfold get_synonyms. split.
  - intros [ws Hrun]. destruct (api word) as [e|data]; [done|].
    destruct (filter_synonyms greater min_score data) as [e|filtered] eqn:Hf;
      [done|].
    apply filter_synonyms_inr in Hf as [Hall _]. by exists data.
  - intros (data & -> & Hall).
    destruct (filter_synonyms_well_formed _ _ Hall) as [filtered ->].
    by eexists.
Qed.

(** X12.  Asking for more results only extends the answer: for two limits
    that are not negative, the answer to the smaller is the beginning of
    the answer to the larger. *)
Theorem get_synonyms_limit_monotone
    (word : query) (min_score smaller larger : Z) (ws ws' : list json) :
  (0 ≤ smaller ≤ larger)%Z →
  get_synonyms greater api word min_score smaller = inr ws →
  get_synonyms greater api word min_score larger = inr ws' →
  ws = take (Z.to_nat smaller) ws'.
Proof.
  intros Hle. unfold get_synonyms. destruct (api word) as [e|data]; [done|].
  destruct (filter_synonyms greater min_score data) as [e|filtered]; [done|].
  intros [= <-] [= <-]. unfold slice_to. rewrite !decide_True by lia.
  rewrite take_take. f_equal. lia.
Qed.

End DatamuseFacts.

Lemma get_synonyms_result_witness :
  let api : string → fetch_error + list (gmap string datamuse_json) := λ _,
    inr [ {[ "word" := JStr "feline"; "score" := JInt 900 ]};
          {[ "word" := JStr "kitty"; "score" := JInt 100 ]};
          {[ "word" := JStr "puss" ]} ] in
  ∃ data, api "cat" = inr data ∧
          [JStr "feline"] `sublist_of` omap (λ item, item !! "word") data.
Proof.
  intros api.
  destruct (get_synonyms_result datamuse_greater api "cat" 500 10 [JStr "feline"])
    as (data & Hdata & _ & Hsub & _).
  - vm_compute. reflexivity.
  - exists data. split; [exact Hdata|exact Hsub].
Defined.

Lemma get_synonyms_limit_monotone_witness :
  let api : string → fetch_error + list (gmap string datamuse_json) := λ _,
    inr [ {[ "word" := JStr "feline"; "score" := JInt 900 ]};
          {[ "word" := JStr "puss"; "score" := JInt 700 ]} ] in
  [JStr "feline"] = take 1 [JStr "feline"; JStr "puss"].
Proof.
  intros api.
  apply (get_synonyms_limit_monotone datamuse_greater api "cat" 500 1 10
           [JStr "feline"] [JStr "feline"; JStr "puss"]).
  - lia.
  - vm_compute. reflexivity.
  - vm_compute. reflexivity.
Defined.

(** ** [normalize] *)

Lemma space_isspace : isspace SPACE = true.
Proof. vm_compute. reflexivity. Qed.

Lemma space_not_removed : SPACE ∉ PUNCTUATION_TO_REMOVE.
Proof. apply (bool_decide_unpack _). vm_compute. exact I. Qed.

Lemma space_not_replaced : SPACE ∉ PUNCTUATION_TO_REPLACE_WITH_SPACE.
Proof. apply (bool_decide_unpack _). vm_compute. exact I. Qed.

Lemma plain_space : plain SPACE.
Proof. split_and!; auto using space_not_removed, space_not_replaced. Qed.

Lemma single_spaced_cons c (t : list N) :
  single_spaced (c :: t) ↔
  (c = SPACE → head t ≠ Some SPACE) ∧ single_spaced t.
Proof.
  destruct t as [|c' t]; simpl; [naive_solver|].
  split.
  - intros [Hpair Ht]. split; [|done]. intros -> [= ->]. by apply Hpair.
  - intros [Hhead Ht]. split; [|done]. intros [-> ->]. by apply Hhead.
Qed.

Lemma sub_replace_plain (t : list N) :
  Forall (λ c, c ∉ PUNCTUATION_TO_REMOVE) t →
  Forall (λ c, (c ∉ PUNCTUATION_TO_REMOVE) ∧
               c ∉ PUNCTUATION_TO_REPLACE_WITH_SPACE) (sub_replace t).
Proof.
  unfold sub_replace. induction 1 as [|c t Hc _ IH]; [constructor|].
  rewrite fmap_cons. constructor; [|done].
  destruct (decide (c ∈ PUNCTUATION_TO_REPLACE_WITH_SPACE)); [|done].
  split; [apply space_not_removed|apply space_not_replaced].
Qed.

Lemma sub_spaces_go_plain in_run (t : list N) :
  Forall (λ c, (c ∉ PUNCTUATION_TO_REMOVE) ∧
               c ∉ PUNCTUATION_TO_REPLACE_WITH_SPACE) t →
  Forall plain (sub_spaces_go in_run t).
Proof.
  intros Hall. revert in_run.
  induction Hall as [|c t [Hc1 Hc2] _ IH]; intros in_run; simpl; [constructor|].
  destruct (isspace c) eqn:Hsp.
  - destruct in_run; [done|]. constructor; [apply plain_space|done].
  - constructor; [|done]. split_and!; [done..|congruence].
Qed.

Lemma sub_spaces_go_spaced in_run (t : list N) :
  single_spaced (sub_spaces_go in_run t) ∧
  (in_run = true → head (sub_spaces_go in_run t) ≠ Some SPACE).
Proof.
  revert in_run. induction t as [|c t IH]; intros in_run; simpl; [done|].
  destruct (isspace c) eqn:Hsp.
  - destruct in_run; [apply IH|]. split; [|done].
    apply single_spaced_cons. split; [intros _|]; by apply (IH true).
  - assert (c ≠ SPACE) as Hc by (intros ->; by rewrite space_isspace in Hsp).
    split; [|by intros _ [=]].
    apply single_spaced_cons. split; [done|]. apply (IH false).
Qed.

Lemma text_lstrip_suffix (t : list N) : text_lstrip t `suffix_of` t.
Proof.
  induction t as [|c t IH]; simpl; [done|].
  destruct (isspace c); [by apply suffix_cons_r|done].
Qed.

Lemma text_lstrip_head (t : list N) c :
  head (text_lstrip t) = Some c → isspace c = false.
Proof.
  induction t as [|c' t IH]; simpl; [done|].
  destruct (isspace c') eqn:Hsp; [done|]. by intros [= <-].
Qed.

Lemma text_rstrip_prefix (t : list N) : text_rstrip t `prefix_of` t.
Proof.
  induction t as [|c t IH]; simpl; [done|].
  destruct (text_rstrip t) as [|c' kept].
  - destruct (isspace c); [apply prefix_nil|].
    apply prefix_cons, prefix_nil.
  - by apply prefix_cons.
Qed.

Lemma text_rstrip_last (t : list N) c :
  last (text_rstrip t) = Some c → isspace c = false.
Proof.
  induction t as [|c' t IH]; simpl; [done|].
  destruct (text_rstrip t) as [|c'' kept].
  - destruct (isspace c') eqn:Hsp; [done|]. by intros [= <-].
  - rewrite last_cons_cons. apply IH.
Qed.

Lemma text_rstrip_head (t : list N) c :
  head (text_rstrip t) = Some c → head t = Some c.
Proof.
  destruct t as [|c' t]; simpl; [done|].
  destruct (text_rstrip t); [|done]. by destruct (isspace c').
Qed.

Lemma single_spaced_suffix (t t' : list N) :
  t' `suffix_of` t → single_spaced t → single_spaced t'.
Proof.
  intros [pre ->]. induction pre as [|c pre IH]; [done|].
  rewrite <- app_comm_cons. intros [_ ?]%single_spaced_cons. auto.
Qed.

Lemma single_spaced_prefix (t t' : list N) :
  t' `prefix_of` t → single_spaced t → single_spaced t'.
Proof.
  intros [post ->]. induction t' as [|c t' IH]; [done|].
  rewrite <- app_comm_cons. intros [Hhead Hrest]%single_spaced_cons.
  apply single_spaced_cons. split; [|auto].
  intros Hc Ht'. apply (Hhead Hc). by destruct t'.
Qed.

Lemma Forall_suffix (P : N → Prop) (t t' : list N) :
  t' `suffix_of` t → Forall P t → Forall P t'.
Proof. intros [pre ->] [_ ?]%Forall_app. done. Qed.

Lemma Forall_prefix (P : N → Prop) (t t' : list N) :
  t' `prefix_of` t → Forall P t → Forall P t'.
Proof. intros [post ->] [? _]%Forall_app. done. Qed.

Lemma normalize_core_tidy (t : list N) :
  tidy (text_strip (sub_spaces (sub_replace (sub_remove t)))).
Proof.
  set (t1 := sub_spaces (sub_replace (sub_remove t))).
  assert (Forall plain t1) as Hplain.
  { apply sub_spaces_go_plain, sub_replace_plain.
    unfold sub_remove. apply Forall_forall. by intros c [? _]%list_elem_of_filter. }
  assert (single_spaced t1) as Hspaced by apply sub_spaces_go_spaced.
  unfold text_strip, tidy.
  pose proof (text_lstrip_suffix t1) as Hsuf.
  pose proof (text_rstrip_prefix (text_lstrip t1)) as Hpre.
  split_and!.
  - by eapply Forall_prefix, Forall_suffix.
  - by eapply single_spaced_prefix, single_spaced_suffix.
  - intros Hhead%text_rstrip_head%text_lstrip_head.
    by rewrite space_isspace in Hhead.
  - intros Hlast%text_rstrip_last. by rewrite space_isspace in Hlast.
Qed.

(** X13.  [normalize] returns the lowercase form of a text in which none of
    the characters of the two punctuation classes is left, every white
    space is a single space standing between two other characters, and
    nothing but [lower] has been applied last. *)
Theorem normalize_tidy (lower : list N → list N) (t : list N) :
  ∃ core,
    normalize lower t = lower core ∧
    Forall (λ c, (c ∉ PUNCTUATION_TO_REMOVE) ∧
                 (c ∉ PUNCTUATION_TO_REPLACE_WITH_SPACE) ∧
                 (isspace c = true → c = SPACE)) core ∧
    (∀ i, core !! i = Some SPACE → core !! S i ≠ Some SPACE) ∧
    head core ≠ Some SPACE ∧ last core ≠ Some SPACE.
Proof.
  exists (text_strip (sub_spaces (sub_replace (sub_remove t)))).
  destruct (normalize_core_tidy t) as (Hplain & Hspaced & Hhead & Hlast).
  split_and!; [done..| |done|done].
  generalize dependent (text_strip (sub_spaces (sub_replace (sub_remove t)))).
  intros core _ Hspaced _ _.
  induction core as [|c core IH]; intros i Hi; [done|].
  apply single_spaced_cons in Hspaced as [Hc Hrest].
  destruct i as [|i]; simpl in *.
  - injection Hi as ->. rewrite <- head_lookup. by apply Hc.
  - by apply IH.
Qed.

Lemma sub_spaces_go_tidy in_run (t : list N) :
  Forall plain t → single_spaced t →
  (in_run = true → head t ≠ Some SPACE) →
  sub_spaces_go in_run t = t.
Proof.
  intros Hplain. revert in_run.
  induction Hplain as [|c t (_ & _ & Hc) _ IH]; intros in_run Hspaced Hhead;
    simpl; [done|].
  apply single_spaced_cons in Hspaced as [Hnext Hspaced].
  destruct (isspace c) eqn:Hsp.
  - rewrite (Hc eq_refl) in *. destruct in_run; [by destruct Hhead|].
    f_equal. apply IH; [done|]. intros _. by apply Hnext.
  - f_equal. by apply IH.
Qed.

Lemma text_rstrip_tidy (t : list N) :
  (∀ c, last t = Some c → isspace c = false) → text_rstrip t = t.
Proof.
  induction t as [|c t IH]; simpl; [done|]. intros Hlast.
  destruct t as [|c' t].
  - simpl. by rewrite (Hlast c eq_refl).
  - rewrite IH; [done|]. intros c'' Hc''. apply Hlast.
    by rewrite last_cons_cons.
Qed.

(** A tidy text is left as it is by every step before [lower]. *)
Lemma tidy_fixed (t : list N) :
  tidy t → text_strip (sub_spaces (sub_replace (sub_remove t))) = t.
Proof.
  intros (Hplain & Hspaced & Hhead & Hlast).
  assert (sub_remove t = t) as ->.
  { unfold sub_remove. clear -Hplain.
    induction Hplain as [|c t (Hc & _) _ IH]; [done|].
    rewrite filter_cons, decide_True by done. by rewrite IH. }
  assert (sub_replace t = t) as ->.
  { unfold sub_replace. clear -Hplain.
    induction Hplain as [|c t (_ & Hc & _) _ IH]; [done|].
    rewrite fmap_cons, decide_False by done. by rewrite IH. }
  unfold sub_spaces. rewrite sub_spaces_go_tidy by done.
  assert (∀ c, plain c → c ≠ SPACE → isspace c = false) as Hns.
  { intros c (_ & _ & Hc) Hne. destruct (isspace c); [|done].
    by destruct Hne; apply Hc. }
  unfold text_strip.
  assert (text_lstrip t = t) as ->.
  { destruct t as [|c t]; [done|]. simpl.
    apply Forall_cons in Hplain as [Hc _].
    rewrite (Hns c Hc); [done|]. intros ->. by apply Hhead. }
  apply text_rstrip_tidy. intros c Hc. apply Hns.
  - eapply Forall_forall; [done|]. by apply last_Some_elem_of.
  - intros ->. by apply Hlast.
Qed.

(** X14.  A text without white space and without any character of the two
    punctuation classes is only lowercased. *)
Theorem normalize_plain_word (lower : list N → list N) (t : list N) :
  Forall (λ c, (c ∉ PUNCTUATION_TO_REMOVE) ∧
               (c ∉ PUNCTUATION_TO_REPLACE_WITH_SPACE) ∧
               isspace c = false) t →
  normalize lower t = lower t.
Proof.
  intros Hall. unfold normalize. rewrite tidy_fixed; [done|].
  assert (Forall (λ c, plain c ∧ c ≠ SPACE) t) as Hplain.
  { eapply Forall_impl; [done|]. intros c (H1 & H2 & H3).
    split; [split_and!; [done..|congruence]|].
    intros ->. by rewrite space_isspace in H3. }
  clear Hall. split_and!.
  - eapply Forall_impl; [done|]. by intros c [? _].
  - induction Hplain as [|c t [_ Hc] _ IH]; [done|].
    apply single_spaced_cons. by split.
  - destruct Hplain as [|c t [_ Hc] _]; [done|]. by intros [= ->].
  - intros Hlast%last_Some_elem_of.
    eapply Forall_forall in Hplain as [_ Hne]; [|done]. done.
Qed.

Lemma normalize_plain_word_witness :
  normalize (fmap lower_code) [67; 97; 116]%N = [99; 97; 116]%N.
Proof.
  rewrite (normalize_plain_word (fmap lower_code) [67; 97; 116]%N).
  - vm_compute. reflexivity.
  - repeat constructor; apply (bool_decide_unpack _); vm_compute; exact I.
Defined.

(** X15.  [normalize] is idempotent whenever [lower] is idempotent and
    keeps tidy texts tidy, as lowercasing does: a normalized text is
    returned as it is. *)
Theorem normalize_idempotent (lower : list N → list N) (t : list N) :
  (∀ s, lower (lower s) = lower s) →
  (∀ s, tidy s → tidy (lower s)) →
  normalize lower (normalize lower t) = normalize lower t.
Proof.
  intros Hidem Htidy. unfold normalize at 1.
  rewrite tidy_fixed; [apply Hidem|].
  apply Htidy, normalize_core_tidy.
Qed.

Lemma lower_code_idempotent c : lower_code (lower_code c) = lower_code c.
Proof. unfold lower_code. repeat case_decide; lia. Qed.

Lemma lower_code_space c : lower_code c = SPACE → c = SPACE.
Proof. unfold lower_code, SPACE. case_decide; lia. Qed.

Lemma lower_code_plain c : plain c → plain (lower_code c).
Proof.
  unfold lower_code. case_decide as Hc; [|done]. intros _.
  assert (97 ≤ c + 32 ≤ 122)%N as Hrange by lia.
  clear Hc. generalize dependent (c + 32)%N. clear c. intros c Hc.
  split_and!.
  - unfold PUNCTUATION_TO_REMOVE. intros Hin.
    repeat (apply elem_of_cons in Hin as [->|Hin]; [lia|]).
    by apply elem_of_nil in Hin.
  - unfold PUNCTUATION_TO_REPLACE_WITH_SPACE. intros Hin.
    repeat (apply elem_of_cons in Hin as [->|Hin]; [lia|]).
    by apply elem_of_nil in Hin.
  - unfold isspace, WHITESPACE. intros Hin%bool_decide_eq_true.
    repeat (apply elem_of_cons in Hin as [->|Hin]; [lia|]).
    by apply elem_of_nil in Hin.
Qed.

Lemma tidy_fmap (f : N → N) (t : list N) :
  (∀ c, plain c → plain (f c)) → (∀ c, f c = SPACE → c = SPACE) →
  tidy t → tidy (f <$> t).
Proof.
  intros Hplain Hspace (Hall & Hspaced & Hhead & Hlast). split_and!.
  - apply Forall_fmap. eapply Forall_impl; [done|]. intros c. apply Hplain.
  - clear -Hspace Hspaced. induction t as [|c t IH]; [done|].
    apply single_spaced_cons in Hspaced as [Hc Ht].
    rewrite fmap_cons. apply single_spaced_cons. split; [|auto].
    intros Hfc%Hspace. specialize (Hc Hfc).
    destruct t as [|c' t]; [done|]. simpl. intros [= Hc'%Hspace].
    apply Hc. simpl. congruence.
  - destruct t as [|c t]; [done|]. simpl. intros [= Hc%Hspace].
    apply Hhead. simpl. congruence.
  - rewrite fmap_last. destruct (last t) as [c|] eqn:Hl; [|done].
    simpl. intros [= Hc%Hspace]. apply Hlast. congruence.
Qed.

Lemma normalize_idempotent_witness :
  normalize (fmap lower_code)
    (normalize (fmap lower_code) [68; 111; 110; 39; 116; 33; 32; 83; 84; 79; 80]%N)
  = [100; 111; 110; 116; 32; 115; 116; 111; 112]%N.
Proof.
  rewrite (normalize_idempotent (fmap lower_code)).
  - vm_compute. reflexivity.
  - intros s. rewrite <- list_fmap_compose. apply list_fmap_ext.
    intros ? c _. apply lower_code_idempotent.
  - intros s. apply tidy_fmap; [apply lower_code_plain|apply lower_code_space].
Defined.

(** ** The vocabulary *)

Lemma split_whitespace_go_app (t rest : list N) runs :
  split_whitespace_go rest = ([], runs) →
  split_whitespace_go (t ++ rest)
  = ((split_whitespace_go t).1, (split_whitespace_go t).2 ++ runs).
Proof.
  intros Hrest. induction t as [|c t IH]; simpl; [done|].
  rewrite IH. destruct (split_whitespace_go t) as [run runs']. simpl.
  destruct (isspace c); [|done]. by destruct run.
Qed.

Lemma split_whitespace_space (t rest : list N) :
  split_whitespace (t ++ SPACE :: rest)
  = split_whitespace t ++ split_whitespace rest.
Proof.
  unfold split_whitespace.
  rewrite (split_whitespace_go_app t (SPACE :: rest) (split_whitespace rest)).
  - destruct (split_whitespace_go t) as [run runs]. simpl. by destruct run.
  - cbn [split_whitespace_go]. unfold split_whitespace.
    destruct (split_whitespace_go rest) as [run runs].
    by rewrite space_isspace.
Qed.

(** The runs of the joined questions are the runs of each question, in
    order. *)
Lemma split_whitespace_join (questions : list (list N)) :
  split_whitespace (join_with SPACE questions)
  = concat (split_whitespace <$> questions).
Proof.
  induction questions as [|q questions IH]; [done|].
  destruct questions as [|q' questions].
  - simpl. by rewrite app_nil_r.
  - change (join_with SPACE (q :: q' :: questions))
      with (q ++ SPACE :: join_with SPACE (q' :: questions)).
    by rewrite split_whitespace_space, IH.
Qed.

(** X16.  The words that the script looks up are exactly the normalized
    runs without white space of the second tab field of the lines that
    pass the filter of line 97, less those that [strip] leaves empty and
    less the first two lines of the file taken as words; a line passes the
    filter only if it does not begin with the comment prefix and has a
    second field. *)
Theorem vocabulary_spec (lower : list N → list N) (content : list (list N))
    (w : list N) :
  (w ∈ vocabulary lower content ↔
   (∃ line question run,
      line ∈ content ∧ question_of line = Some question ∧
      run ∈ split_whitespace question ∧ w = normalize lower run) ∧
   text_strip w ≠ [] ∧
   w ∉ removesuffix_lf <$> take 2 content) ∧
  (∀ line question, question_of line = Some question →
     ¬ COMMENT_CODES `prefix_of` line ∧
     ∃ first rest, split_on TAB line = first :: question :: rest).
Proof.
  split.
  - unfold vocabulary.
    rewrite elem_of_difference, elem_of_filter, !elem_of_list_to_set.
    rewrite split_whitespace_join, list_elem_of_fmap.
    split.
    + intros [[Hstrip (run & -> & Hrun)] Hignore]. split_and!; [|done..].
      apply elem_of_concat in Hrun as (runs & Hrun & Hruns).
      apply list_elem_of_fmap in Hruns as (question & -> & Hq).
      apply list_elem_of_omap in Hq as (line & Hline & Hq).
      by exists line, question, run.
    + intros ((line & question & run & Hline & Hq & Hrun & ->) & Hstrip & Hign).
      split_and!; [done| |done]. exists run. split; [done|].
      apply elem_of_concat. exists (split_whitespace question).
      split; [done|]. apply list_elem_of_fmap_2.
      apply list_elem_of_omap. by exists line.
  - intros line question. unfold question_of.
    destruct (bool_decide (COMMENT_CODES `prefix_of` line)) eqn:Hc; [done|].
    apply bool_decide_eq_false in Hc.
    destruct (forallb _ line); [done|].
    destruct (split_on TAB line) as [|first [|second rest]]; [done..|].
    intros [= <-]. split; [done|]. by exists first, rest.
Qed.

(** ** The file of synonyms *)

Section SynonymsBlockFacts.
Context {json : Type} (greater : json → Z → option bool).
Context (api : list N → fetch_error + list (gmap string json)).
Context (as_text : json → option (list N)).

Lemma looked_up_length word texts :
  looked_up greater api as_text word texts → length texts ≤ 10.
Proof.
  intros (synonyms & Hget & Hmap). apply length_mapM in Hmap as <-.
  destruct (get_synonyms_result _ _ _ _ _ _ Hget) as (_ & _ & _ & _ & Hlen).
  apply Hlen. lia.
Qed.

Lemma fetch_records_inr words contentToWrite :
  fetch_records greater api as_text words = inr contentToWrite →
  ∃ records,
    contentToWrite = concat records ∧
    Forall2 (λ word record, ∃ texts,
               looked_up greater api as_text word texts ∧
               record = word ++ TAB :: join_with TAB texts ++ [LINE_FEED])
            words records.
Proof.
  revert contentToWrite. induction words as [|word words IH]; simpl.
  - intros ? [= <-]. by exists [].
  - intros c.
    destruct (get_synonyms greater api word 500 10) as [e|synonyms] eqn:Hget;
      [done|].
    destruct (mapM as_text synonyms) as [texts|] eqn:Hmap; [|done].
    destruct (fetch_records greater api as_text words) as [e|c']; [done|].
    intros [= <-]. destruct (IH c' eq_refl) as (records & -> & Hall).
    exists ((word ++ TAB :: join_with TAB texts ++ [LINE_FEED]) :: records).
    split.
    + simpl. rewrite <- !(assoc_L (++)). simpl.
      by rewrite <- !(assoc_L (++)).
    + constructor; [|done]. exists texts. split; [|done]. by exists synonyms.
Qed.

Lemma fetch_records_returns words :
  (∃ contentToWrite, fetch_records greater api as_text words = inr contentToWrite) ↔
  Forall (λ word, ∃ texts, looked_up greater api as_text word texts) words.
Proof.
  induction words as [|word words IH]; simpl.
  - split; [constructor|by eexists].
  - rewrite Forall_cons, <- IH. split.
    + intros [c Hrun].
      destruct (get_synonyms greater api word 500 10) as [e|synonyms] eqn:Hget;
        [done|].
      destruct (mapM as_text synonyms) as [texts|] eqn:Hmap; [|done].
      destruct (fetch_records greater api as_text words) as [e|c']; [done|].
      split; [|by eexists]. exists texts. by exists synonyms.
    + intros [(texts & synonyms & -> & ->) [c ->]]. by eexists.
Qed.

(** X17.  When the script gets to write the file of synonyms, the text
    written is one record for each word of the vocabulary, in the order in
    which the set is iterated: the word, a tab, at most ten synonyms joined
    by tabs, a line feed. *)
Theorem synonyms_block_records
    (lower : list N → list N) (order : WordOrder)
    (questions_file : option (list (list N))) (contentToWrite : list N) :
  synonyms_block greater api as_text lower order questions_file
    = inr contentToWrite →
  ∃ content records,
    questions_file = Some content ∧
    contentToWrite = concat records ∧
    length records = size (vocabulary lower content) ∧
    Forall2 (λ word record, ∃ texts,
               looked_up greater api as_text word texts ∧ length texts ≤ 10 ∧
               record = word ++ TAB :: join_with TAB texts ++ [LINE_FEED])
            (iter_set order (vocabulary lower content)) records.
Proof.
  unfold synonyms_block. destruct questions_file as [content|]; [|done].
  intros (records & -> & Hall)%fetch_records_inr.
  exists content, records. split_and!; [done..| |].
  - rewrite <- (Forall2_length _ _ _ Hall), (iter_set_perm order).
    reflexivity.
  - eapply Forall2_impl; [done|]. intros word record (texts & Hlook & ->).
    exists texts. split_and!; [done| |done]. by eapply looked_up_length.
Qed.

(** X18.  The file of synonyms is written all or nothing, and whether it
    is written does not depend on the order in which the set of words is
    iterated: the script gets to the write exactly when the file of
    questions exists and the lookup of every word of the vocabulary
    succeeds with synonyms that are all texts. *)
Theorem synonyms_block_returns_iff
    (lower : list N → list N) (order : WordOrder)
    (questions_file : option (list (list N))) :
  (∃ contentToWrite,
     synonyms_block greater api as_text lower order questions_file
       = inr contentToWrite) ↔
  ∃ content, questions_file = Some content ∧
    ∀ word, word ∈ vocabulary lower content →
            ∃ texts, looked_up greater api as_text word texts.
Proof.
  unfold synonyms_block. destruct questions_file as [content|].
  - rewrite fetch_records_returns, Forall_forall. split.
    + intros Hall. exists content. split; [done|]. intros word Hword.
      apply Hall. rewrite (iter_set_perm order). by apply elem_of_elements.
    + intros (? & [= <-] & Hall) word Hword. apply Hall.
      rewrite (iter_set_perm order) in Hword. by apply elem_of_elements.
  - split; [by intros [? ?]|by intros (? & ? & _)].
Qed.

End SynonymsBlockFacts.

Lemma synonyms_block_records_witness :
  let api : list N → fetch_error + list (gmap string datamuse_json) := λ _,
    inr [ {[ "word" := JStr "big"; "score" := JInt 900 ]} ] in
  let as_text : datamuse_json → option (list N) := λ v,
    match v with JStr _ => Some [98; 105; 103]%N | _ => None end in
  let order : WordOrder :=
    {| iter_set := elements; iter_set_perm := λ _, reflexivity _ |} in
  ∃ records,
    [108; 97; 114; 103; 101; 9; 98; 105; 103; 10]%N = concat records ∧
    length records = 1.
Proof.
  intros api as_text order.
  destruct (synonyms_block_records datamuse_greater api as_text
              (fmap lower_code) order
              (Some [[47; 47; 120; 10]; [10];
                     [49; 9; 76; 97; 114; 103; 101; 63; 9; 121; 10]]%N)
              [108; 97; 114; 103; 101; 9; 98; 105; 103; 10]%N)
    as (content & records & Hfile & Hconcat & Hlen & _).
  - vm_compute. reflexivity.
  - exists records. split; [exact Hconcat|].
    injection Hfile as <-. rewrite Hlen. vm_compute. reflexivity.
Defined.

(** ** The translation script: [translate.py] *)

Lemma string_length_append (s t : string) :
  String.length (s +:+ t) = String.length s + String.length t.
Proof. induction s as [|c s IH]; simpl; [done|by rewrite IH]. Qed.

Lemma append_cancel_r (a b e : string) : a +:+ e = b +:+ e → a = b.
Proof.
  revert b. induction a as [|c a IH]; intros [|d b] H; simpl in *.
  - done.
  - apply (f_equal String.length) in H.
    rewrite !string_length_append in H. simpl in H.
    rewrite ?string_length_append in H. lia.
  - apply (f_equal String.length) in H.
    rewrite !string_length_append in H. simpl in H.
    rewrite ?string_length_append in H. lia.
  - injection H as -> H. f_equal. by apply IH.
Qed.

Lemma language_file_inj (name a b : string) :
  name +:+ "_" +:+ a +:+ QNA_FILE_EXT = name +:+ "_" +:+ b +:+ QNA_FILE_EXT →
  a = b.
Proof.
  intros H. apply String.app_inj in H. apply String.app_inj in H.
  by apply append_cancel_r in H.
Qed.

Lemma split_head_spec separator s :
  ∃ token tokens,
    split separator s = token :: tokens ∧ free_of separator token ∧
    (tokens = [] ∧ s = token ∨
     ∃ rest, s = token +:+ String separator rest ∧
             tokens = split separator rest).
Proof.
  induction s as [|c s (token & tokens & Hsplit & Hfree & Hrest)]; simpl.
  - exists EmptyString, []. split_and!; [done|done|by left].
  - case_bool_decide as Hc.
    + subst c. exists EmptyString, (split separator s).
      split_and!; [done|done|]. right. by exists s.
    + rewrite Hsplit. exists (String c token), tokens.
      split_and!; [done|by split|].
      destruct Hrest as [[-> ->]|(rest & -> & ->)]; [by left|].
      right. by exists rest.
Qed.

(** X19. [get_general_lang] returns the part of the language code before
    its first hyphen: the result holds no hyphen, and the code is the
    result alone or the result followed by a hyphen and the rest. *)
Theorem get_general_lang_prefix (lang : string) :
  free_of "-"%char (get_general_lang lang) ∧
  (lang = get_general_lang lang ∨
   ∃ rest, lang = get_general_lang lang +:+ String "-"%char rest).
Proof.
  unfold get_general_lang.
  destruct (split_head_spec "-"%char lang)
    as (token & tokens & -> & Hfree & Hrest); simpl.
  split; [done|].
  destruct Hrest as [[_ ->]|(rest & -> & _)]; [by left|].
  right. by exists rest.
Qed.

Section TranslateFacts.

Context (ops : StrOps) (isdigit : string → bool).
Context (languages_input : list string).
Context (translate_text : string → string → string → string + translation).
Context (SYNONYMS_FILE_NAME QNA_FILE_NAME ADDITIONAL_TEXT_FILE_NAME : string).
Context (BASE_LANG : string).

Lemma translate_answers_no_stop no_translation_string source target texts :
  translate_answers translate_text no_translation_string source target texts
  ≠ inl StopIteration.
Proof.
  induction texts as [|text texts IH]; simpl; [done|].
  case_decide.
  - by destruct (translate_answers _ _ _ _ texts) as [[]|].
  - destruct (translate_text text source target); [done|].
    by destruct (translate_answers _ _ _ _ texts) as [[]|].
Qed.

Lemma translate_qna_lines_no_stop no_translation_string source target
    reader written :
  (translate_qna_lines ops isdigit translate_text no_translation_string
     source target reader written).1.1 ≠ inl StopIteration.
Proof.
  revert written. induction reader as [|line reader IH]; intros written;
    simpl; [done|].
  destruct (_ || _ || _); [apply IH|].
  case_bool_decide; [done|].
  pose proof (translate_answers_no_stop no_translation_string source target
                (tail (split SEPARATOR line))) as Hno.
  destruct (translate_answers _ _ _ _ _) as [e|result]; [|apply IH].
  simpl. congruence.
Qed.

Lemma translate_qna_frame (source_lang target_lang : string)
    (fs : gmap string (list string)) (path : string) :
  path ≠ QNA_FILE_NAME +:+ "_" +:+ target_lang +:+ QNA_FILE_EXT →
  (translate_qna ops isdigit languages_input translate_text QNA_FILE_NAME
     source_lang target_lang fs).1.2 !! path = fs !! path.
Proof.
  intros Hpath. unfold translate_qna.
  case_decide; [done|]. case_decide; [done|].
  destruct (fs !! _) as [[|header [|no_translation_string reader]]|];
    simpl; [by rewrite lookup_insert_ne..| |done].
  destruct (translate_qna_lines _ _ _ _ _ _ _ _)
    as [[[cause|[]] written] out]; simpl; by rewrite lookup_insert_ne.
Qed.

Lemma translate_synonyms_frame (source_lang target_lang : string)
    (fs : gmap string (list string)) (path : string) :
  path ≠ SYNONYMS_FILE_NAME +:+ "_" +:+ target_lang +:+ QNA_FILE_EXT →
  (translate_synonyms ops languages_input translate_text SYNONYMS_FILE_NAME
     source_lang target_lang fs).1.2 !! path = fs !! path.
Proof.
  intros Hpath. unfold translate_synonyms.
  case_decide; [done|]. case_decide; [done|]. case_decide; [done|].
  destruct (fs !! _) as [reader|]; simpl; [|done].
  destruct (translate_synonyms_lines _ _ _ _ _ _)
    as [[[cause|[]] written] out]; simpl; by rewrite lookup_insert_ne.
Qed.

(** X20. Neither [translate_qna] nor [translate_synonyms] changes the
    file it reads, and no file other than the file of the target language
    is changed, whatever the outcome. *)
Theorem translate_keeps_source_file (source_lang target_lang : string)
    (fs : gmap string (list string)) :
  let qna_file lang := QNA_FILE_NAME +:+ "_" +:+ lang +:+ QNA_FILE_EXT in
  let synonyms_file lang :=
    SYNONYMS_FILE_NAME +:+ "_" +:+ lang +:+ QNA_FILE_EXT in
  let after_qna :=
    (translate_qna ops isdigit languages_input translate_text QNA_FILE_NAME
       source_lang target_lang fs).1.2 in
  let after_synonyms :=
    (translate_synonyms ops languages_input translate_text SYNONYMS_FILE_NAME
       source_lang target_lang fs).1.2 in
  (after_qna !! qna_file source_lang = fs !! qna_file source_lang ∧
   ∀ path, path ≠ qna_file target_lang → after_qna !! path = fs !! path) ∧
  (after_synonyms !! synonyms_file source_lang
   = fs !! synonyms_file source_lang ∧
   ∀ path, path ≠ synonyms_file target_lang →
           after_synonyms !! path = fs !! path).
Proof.
  intros qna_file synonyms_file after_qna after_synonyms.
  split; (split; [|intros path Hpath]).
  - destruct (decide (source_lang = target_lang)) as [->|Hne].
    + subst after_qna. unfold translate_qna. by rewrite decide_True.
    + apply translate_qna_frame. by intros ?%language_file_inj.
  - by apply translate_qna_frame.
  - destruct (decide (source_lang = target_lang)) as [->|Hne].
    + subst after_synonyms. unfold translate_synonyms.
      by rewrite decide_True.
    + apply translate_synonyms_frame. by intros ?%language_file_inj.
  - by apply translate_synonyms_frame.
Qed.

(** X21. [translate_qna] fails on [StopIteration] exactly when the
    languages are accepted and the source file has fewer than two lines;
    the target file then holds the lines of the source file. *)
Theorem translate_qna_stop_iteration_iff (source_lang target_lang : string)
    (fs : gmap string (list string)) :
  let source_file := QNA_FILE_NAME +:+ "_" +:+ source_lang +:+ QNA_FILE_EXT in
  let target_file := QNA_FILE_NAME +:+ "_" +:+ target_lang +:+ QNA_FILE_EXT in
  let run :=
    translate_qna ops isdigit languages_input translate_text QNA_FILE_NAME
      source_lang target_lang fs in
  run.1.1 = inl (UnexpectedError StopIteration) ↔
  source_lang ≠ target_lang ∧
  target_lang ∈ languages_input ∧ source_lang ∈ languages_input ∧
  ∃ reader, fs !! source_file = Some reader ∧ length reader < 2 ∧
            run.1.2 = <[target_file := reader]> fs.
Proof.
  intros source_file target_file run. subst run. unfold translate_qna.
  destruct (decide (source_lang = target_lang)) as [|Hne];
    [split; [done|by intros [? _]]|].
  destruct (decide (_ ∨ _)) as [Hnot|Hin].
  { split; [done|]. intros (_ & ? & ? & _). by destruct Hnot. }
  assert (target_lang ∈ languages_input ∧ source_lang ∈ languages_input)
    as [Htarget Hsource].
  { split; apply dec_stable; tauto. }
  fold source_file target_file.
  destruct (fs !! source_file)
    as [[|header [|no_translation_string reader]]|]; simpl.
  - split; [|done]. intros _. split_and!; [done..|].
    exists []. split_and!; [done|simpl; lia|done].
  - split; [|done]. intros _. split_and!; [done..|].
    exists [header]. split_and!; [done|simpl; lia|done].
  - pose proof (translate_qna_lines_no_stop no_translation_string
                  (get_general_lang source_lang) target_lang reader
                  [header; no_translation_string]) as Hno.
    destruct (translate_qna_lines _ _ _ _ _ _ _ _)
      as [[[cause|[]] written] out]; simpl in *.
    + split; [congruence|].
      intros (_ & _ & _ & ? & [= <-] & Hlen & _). simpl in Hlen. lia.
    + split; [done|].
      intros (_ & _ & _ & ? & [= <-] & Hlen & _). simpl in Hlen. lia.
  - split; [done|]. by intros (_ & _ & _ & ? & ? & _).
Qed.




Lemma translate_fields_echo source target (fields : list string) :
  (∀ text, translate_text text source target = inr (TextResult text)) →
  translate_fields translate_text source target fields = inr fields.
Proof.
  intros Hecho. induction fields as [|text fields IH]; simpl; [done|].
  by rewrite Hecho, IH.
Qed.

Lemma translate_synonyms_lines_echo source target reader written :
  (∀ text, translate_text text source target = inr (TextResult text)) →
  Forall (λ line,
            is_empty_line ops line || startswith line COMMENT_PREFIX = true
            ∨ 2 ≤ length (split SEPARATOR line)) reader →
  translate_synonyms_lines ops translate_text source target reader written
  = (inr (), written ++ reader, []).
Proof.
  intros Hecho Hall. revert written.
  induction Hall as [|line reader Hline _ IH]; intros written; simpl.
  - by rewrite app_nil_r.
  - destruct (_ || _) eqn:Hskip.
    + rewrite IH. by rewrite <- app_assoc.
    + destruct Hline as [?|Hlen]; [done|].
      rewrite bool_decide_false by lia.
      rewrite translate_fields_echo by done.
      rewrite join_split, IH. by rewrite <- app_assoc.
Qed.

(** X23. With a translator that answers every text with the text itself,
    [translate_synonyms] copies the source file: when the languages are
    accepted and every line is blank, a comment or has two fields or
    more, the target file receives the lines of the source file. *)
Theorem translate_synonyms_echo (source_lang target_lang : string)
    (fs : gmap string (list string)) (reader : list string) :
  (∀ text source target,
     translate_text text source target = inr (TextResult text)) →
  source_lang ≠ target_lang →
  target_lang ∈ languages_input → source_lang ∈ languages_input →
  fs !! (SYNONYMS_FILE_NAME +:+ "_" +:+ source_lang +:+ QNA_FILE_EXT)
  = Some reader →
  Forall (λ line,
            is_empty_line ops line || startswith line COMMENT_PREFIX = true
            ∨ 2 ≤ length (split SEPARATOR line)) reader →
  ∃ out,
    translate_synonyms ops languages_input translate_text SYNONYMS_FILE_NAME
      source_lang target_lang fs
    = (inr (),
       <[SYNONYMS_FILE_NAME +:+ "_" +:+ target_lang +:+ QNA_FILE_EXT
         := reader]> fs,
       out).
Proof.
  intros Hecho Hne Htarget Hsource Hfile Hall. unfold translate_synonyms.
  rewrite decide_False by done.
  rewrite decide_False by (by intros []).
  rewrite decide_False by (by intros []).
  rewrite Hfile, translate_synonyms_lines_echo by done. simpl. eauto.
Qed.

Lemma translate_synonyms_lines_fails source target reader written cause
    written' out :
  translate_synonyms_lines ops translate_text source target reader written
  = (inl cause, written', out) →
  ∃ line,
    reader !! (length written' - length written) = Some line ∧
    length written ≤ length written' ∧
    is_empty_line ops line || startswith line COMMENT_PREFIX = false ∧
    (length (split SEPARATOR line) < 2
     ∧ cause = InvalidColumns (split SEPARATOR line)
     ∨ 2 ≤ length (split SEPARATOR line)
       ∧ translate_fields translate_text source target
           (split SEPARATOR line) = inl cause).
Proof.
  revert written. induction reader as [|line reader IH]; intros written;
    simpl; [done|].
  destruct (_ || _) eqn:Hskip.
  - intros (next & Hnext & Hlen & Hline)%IH.
    rewrite length_app in Hnext, Hlen. simpl in Hnext, Hlen.
    exists next. destruct Hline as [? ?]. split_and!; [|lia|done|done].
    replace (length written' - length written)
      with (S (length written' - (length written + 1))) by lia. done.
  - case_bool_decide as Hlen.
    + intros [= <- <- <-]. exists line. rewrite Nat.sub_diag.
      split_and!; [done|lia|done|]. left. by split.
    + destruct (translate_fields _ _ _ _) as [e|result] eqn:Hfields.
      * intros [= <- <- <-]. exists line. rewrite Nat.sub_diag.
        split_and!; [done|lia|done|]. right. split; [lia|done].
      * intros (next & Hnext & Hlen' & Hline)%IH.
        rewrite length_app in Hnext, Hlen'. simpl in Hnext, Hlen'.
        exists next. destruct Hline as [? ?]. split_and!; [|lia|done|done].
        replace (length written' - length written)
          with (S (length written' - (length written + 1))) by lia. done.
Qed.

(** X24. When [translate_synonyms] fails inside the loop, the target file
    has been created all the same and holds one text for each line before
    the failing one: the line at the place after the last text written is
    neither blank nor a comment, and it has fewer than two fields or a
    field that the translator refused. *)
Theorem translate_synonyms_partial_target (source_lang target_lang : string)
    (fs fs' : gmap string (list string)) (cause : unexpected)
    (out : list printed) :
  translate_synonyms ops languages_input translate_text SYNONYMS_FILE_NAME
    source_lang target_lang fs = (inl (UnexpectedError cause), fs', out) →
  ∃ reader written line,
    fs !! (SYNONYMS_FILE_NAME +:+ "_" +:+ source_lang +:+ QNA_FILE_EXT)
    = Some reader ∧
    fs' = <[SYNONYMS_FILE_NAME +:+ "_" +:+ target_lang +:+ QNA_FILE_EXT
            := written]> fs ∧
    reader !! length written = Some line ∧
    is_empty_line ops line || startswith line COMMENT_PREFIX = false ∧
    (length (split SEPARATOR line) < 2
     ∧ cause = InvalidColumns (split SEPARATOR line)
     ∨ 2 ≤ length (split SEPARATOR line)
       ∧ translate_fields translate_text (get_general_lang source_lang)
           target_lang (split SEPARATOR line) = inl cause).
Proof.
  unfold translate_synonyms. intros Hrun.
  case_decide; [done|]. case_decide; [done|]. case_decide; [done|].
  destruct (fs !! _) as [reader|] eqn:Hfile; [|done].
  destruct (translate_synonyms_lines _ _ _ _ _ _)
    as [[[e|[]] written] printed] eqn:Hlines; [|done].
  injection Hrun as <- <- _.
  apply translate_synonyms_lines_fails in Hlines
    as (line & Hline & _ & Hskip & Hwhy).
  simpl in Hline. rewrite Nat.sub_0_r in Hline.
  exists reader, written, line. by split_and!.
Qed.

Lemma translate_message_length source text langs translated_fields :
  translate_message translate_text source text langs = inr translated_fields →
  length translated_fields = length langs.
Proof.
  revert translated_fields.
  induction langs as [|lang langs IH]; intros translated_fields; simpl.
  - by intros [= <-].
  - destruct (translate_text text source lang) as [|[translated|]]; [done| |done].
    destruct (translate_message _ _ _ langs) as [|rest]; [done|].
    intros [= <-]. simpl. f_equal. by apply IH.
Qed.

Lemma translate_message_raises source text langs cause :
  translate_message translate_text source text langs = inl cause →
  cause = AttributeError ∨ ∃ reason, cause = TranslatorError reason.
Proof.
  induction langs as [|lang langs IH]; simpl; [done|].
  destruct (translate_text text source lang) as [reason|[translated|]].
  - intros [= <-]. right. by exists reason.
  - destruct (translate_message _ _ _ langs) as [e|rest]; [|done].
    intros [= <-]. by apply IH.
  - intros [= <-]. by left.
Qed.

Lemma translate_bot_lines_raises source target_langs reader written cause
    written' :
  translate_bot_lines ops translate_text source target_langs reader written
  = (inl cause, written') →
  cause = IndexError ∨ cause = AttributeError
  ∨ ∃ reason, cause = TranslatorError reason.
Proof.
  revert written. induction reader as [|raw reader IH]; intros written;
    simpl; [done|].
  case_decide; [apply IH|].
  case_bool_decide; [apply IH|].
  destruct (split SEPARATOR (str_strip ops raw)) as [|key [|text fields]].
  - intros [= <- _]. by left.
  - intros [= <- _]. by left.
  - destruct (translate_message _ _ _ _) as [e|translated_fields] eqn:Hmessage;
      [|apply IH].
    intros [= <- _]. right. by apply translate_message_raises in Hmessage.
Qed.

Lemma translate_bot_lines_written source target_langs reader written
    written' :
  translate_bot_lines ops translate_text source target_langs reader written
  = (inr (), written') →
  ∃ added,
    written' = written ++ added ∧
    Forall2 (λ raw text,
               let line := str_strip ops raw in
               let fields := split SEPARATOR line in
               if decide (length fields = length target_langs + 1)
               then text = line +:+ LF
               else ∃ message translated_fields,
                      fields !! 1 = Some message ∧
                      length translated_fields = length target_langs - 1 ∧
                      text = join SEPARATOR (message :: translated_fields)
                             +:+ LF)
            (filter (λ raw, str_strip ops raw ≠ EmptyString) reader) added.
Proof.
  revert written. induction reader as [|raw reader IH]; intros written;
    simpl.
  - intros [= <-]. exists []. by rewrite app_nil_r.
  - destruct (decide (str_strip ops raw = EmptyString)) as [Hblank|Hline].
    { rewrite filter_cons_False by naive_solver. apply IH. }
    rewrite filter_cons_True by done.
    destruct (decide (length (split SEPARATOR (str_strip ops raw))
                      = length target_langs + 1)) as [Hlen|Hlen].
    + rewrite bool_decide_true by done. simpl.
      intros (added & -> & Hall)%IH. eexists (_ :: added).
      rewrite <- app_assoc. split; [done|]. constructor; [|done].
      simpl. by rewrite decide_True.
    + rewrite bool_decide_false by done. simpl.
      destruct (split SEPARATOR (str_strip ops raw))
        as [|key [|message fields]] eqn:Hsplit; [done..|].
      destruct (translate_message _ _ _ _) as [e|translated_fields]
        eqn:Hmessage; [done|].
      intros (added & -> & Hall)%IH. eexists (_ :: added).
      rewrite <- app_assoc. split; [done|]. constructor; [|done].
      simpl. rewrite Hsplit, decide_False by done.
      exists message, translated_fields. split_and!; [done| |done].
      apply translate_message_length in Hmessage. rewrite Hmessage.
      by destruct target_langs; simpl; lia.
Qed.

(** X25. [translate_bot_messages] fails on the comparison of the
    languages exactly when the file has three lines or more and the
    languages of its third line, with the base language put first, are
    not the list of the languages file; the file has then been cut to its
    first three lines. *)
Theorem translate_bot_messages_languages_mismatch
    (fs : gmap string (list string)) :
  let input_file := ADDITIONAL_TEXT_FILE_NAME +:+ QNA_FILE_EXT in
  let run :=
    translate_bot_messages ops languages_input translate_text
      ADDITIONAL_TEXT_FILE_NAME BASE_LANG fs in
  run.1.1 = inl (UnexpectedError LanguagesDoNotMatch) ↔
  ∃ first second header reader,
    fs !! input_file = Some (first :: second :: header :: reader) ∧
    BASE_LANG :: filter (λ lang, lang ≠ BASE_LANG)
                   (tail (split SEPARATOR (str_strip ops header)))
    ≠ languages_input ∧
    run.1.2 = <[input_file := [first; second; header]]> fs.
Proof.
  intros input_file run. subst run. unfold translate_bot_messages.
  fold input_file.
  destruct (fs !! input_file) as [[|first [|second [|header reader]]]|];
    simpl.
  - split; [done|]. by intros (? & ? & ? & ? & ? & _).
  - split; [done|]. by intros (? & ? & ? & ? & ? & _).
  - split; [done|]. by intros (? & ? & ? & ? & ? & _).
  - case_decide as Hlangs.
    + split; [|done]. intros _. by exists first, second, header, reader.
    + destruct (translate_bot_lines _ _ _ _ _ _) as [[cause|[]] written]
        eqn:Hlines; simpl.
      * apply translate_bot_lines_raises in Hlines.
        split; [intros [= ->]; naive_solver|].
        intros (? & ? & ? & ? & [= <- <- <- <-] & ? & _). by destruct Hlangs.
      * split; [done|].
        intros (? & ? & ? & ? & [= <- <- <- <-] & ? & _). by destruct Hlangs.
  - split; [done|]. by intros (? & ? & ? & ? & ? & _).
Qed.

(** X26. The base language has to be the first language of the languages
    file: with any other choice, [translate_bot_messages] fails on every
    file of three lines or more and leaves only those three lines. *)
Theorem translate_bot_messages_base_lang_first
    (fs : gmap string (list string)) (first second header : string)
    (reader : list string) :
  head languages_input ≠ Some BASE_LANG →
  fs !! (ADDITIONAL_TEXT_FILE_NAME +:+ QNA_FILE_EXT)
  = Some (first :: second :: header :: reader) →
  translate_bot_messages ops languages_input translate_text
    ADDITIONAL_TEXT_FILE_NAME BASE_LANG fs
  = (inl (UnexpectedError LanguagesDoNotMatch),
     <[ADDITIONAL_TEXT_FILE_NAME +:+ QNA_FILE_EXT
       := [first; second; header]]> fs,
     []).
Proof.
  intros Hhead Hfile. unfold translate_bot_messages. rewrite Hfile.
  rewrite decide_True; [done|].
  intros <-. by destruct Hhead.
Qed.

(** X27. [translate_bot_messages] fails on [StopIteration] exactly when
    the file has fewer than three lines, and the file is then as it
    was. *)
Theorem translate_bot_messages_short_file (fs : gmap string (list string)) :
  let input_file := ADDITIONAL_TEXT_FILE_NAME +:+ QNA_FILE_EXT in
  let run :=
    translate_bot_messages ops languages_input translate_text
      ADDITIONAL_TEXT_FILE_NAME BASE_LANG fs in
  run.1.1 = inl (UnexpectedError StopIteration) ↔
  ∃ lines, fs !! input_file = Some lines ∧ length lines < 3 ∧ run.1.2 = fs.
Proof.
  intros input_file run. subst run. unfold translate_bot_messages.
  fold input_file.
  destruct (fs !! input_file) as [[|first [|second [|header reader]]]|]
    eqn:Hfile; simpl.
  - split; [|done]. intros _. eexists. split_and!; [done|simpl; lia|].
    by apply insert_id.
  - split; [|done]. intros _. eexists. split_and!; [done|simpl; lia|].
    by apply insert_id.
  - split; [|done]. intros _. eexists. split_and!; [done|simpl; lia|].
    by apply insert_id.
  - case_decide as Hlangs.
    + split; [done|]. intros (? & [= <-] & Hlen & _). simpl in Hlen. lia.
    + destruct (translate_bot_lines _ _ _ _ _ _) as [[cause|[]] written]
        eqn:Hlines; simpl.
      * apply translate_bot_lines_raises in Hlines.
        split; [intros [= ->]; naive_solver|].
        intros (? & [= <-] & Hlen & _). simpl in Hlen. lia.
      * split; [done|].
        intros (? & [= <-] & Hlen & _). simpl in Hlen. lia.
  - split; [done|]. by intros (? & ? & _).
Qed.

(** X28. When [translate_bot_messages] ends without an error on a file
    that exists, the file holds its first three lines as they were and,
    after them, one line for every line that is not blank, in the same
    order: a line with one field more than there are languages is written
    stripped, and any other line is written as its second field followed
    by one translation for each language after the first, without its
    key.  Every such line ends with a line feed. *)
Theorem translate_bot_messages_written (fs fs' : gmap string (list string))
    (out : list printed) (lines : list string) :
  translate_bot_messages ops languages_input translate_text
    ADDITIONAL_TEXT_FILE_NAME BASE_LANG fs = (inr (), fs', out) →
  fs !! (ADDITIONAL_TEXT_FILE_NAME +:+ QNA_FILE_EXT) = Some lines →
  ∃ written,
    fs' = <[ADDITIONAL_TEXT_FILE_NAME +:+ QNA_FILE_EXT
            := take 3 lines ++ written]> fs ∧
    3 ≤ length lines ∧
    Forall2 (λ raw text,
               let line := str_strip ops raw in
               let fields := split SEPARATOR line in
               if decide (length fields = length languages_input + 1)
               then text = line +:+ LF
               else ∃ message translated_fields,
                      fields !! 1 = Some message ∧
                      length translated_fields = length languages_input - 1 ∧
                      text = join SEPARATOR (message :: translated_fields)
                             +:+ LF)
            (filter (λ raw, str_strip ops raw ≠ EmptyString) (drop 3 lines))
            written.
Proof.
  unfold translate_bot_messages. intros Hrun Hfile. rewrite Hfile in Hrun.
  destruct lines as [|first [|second [|header reader]]]; [done..|].
  case_decide as Hlangs; [done|].
  destruct (translate_bot_lines _ _ _ _ _ _) as [[cause|[]] written]
    eqn:Hlines; [done|].
  injection Hrun as <- _.
  apply translate_bot_lines_written in Hlines as (added & -> & Hall).
  rewrite Hlangs in Hall.
  exists added. split_and!; [done|simpl; lia|done].
Qed.

End TranslateFacts.

Lemma translate_answers_agree (first_translator second_translator :
      string → string → string → string + translation)
    no_translation_string source target texts :
  (∀ text, text ≠ no_translation_string →
           first_translator text source target
           = second_translator text source target) →
  translate_answers first_translator no_translation_string source target texts
  = translate_answers second_translator no_translation_string source target
      texts.
Proof.
  intros Hagree. induction texts as [|text texts IH]; simpl; [done|].
  case_decide; [by rewrite IH|].
  by rewrite Hagree, IH.
Qed.

Lemma translate_qna_lines_agree ops isdigit
    (first_translator second_translator :
      string → string → string → string + translation)
    no_translation_string source target reader written :
  (∀ text, text ≠ no_translation_string →
           first_translator text source target
           = second_translator text source target) →
  translate_qna_lines ops isdigit first_translator no_translation_string
    source target reader written
  = translate_qna_lines ops isdigit second_translator no_translation_string
      source target reader written.
Proof.
  intros Hagree. revert written.
  induction reader as [|line reader IH]; intros written; simpl; [done|].
  rewrite (translate_answers_agree first_translator second_translator)
    by done.
  destruct (_ || _ || _); [done|].
  case_bool_decide; [done|].
  by destruct (translate_answers _ _ _ _ _).
Qed.

(** X29. [translate_qna] never sends the second line of the source file,
    the symbol of no translation, to the translator: two translators that
    agree on every other text give the same result, the same files and
    the same output. *)
Theorem translate_qna_no_translation_string (ops : StrOps)
    (isdigit : string → bool) (languages_input : list string)
    (first_translator second_translator :
      string → string → string → string + translation)
    (QNA_FILE_NAME source_lang target_lang : string)
    (fs : gmap string (list string)) :
  (∀ text source target,
     fs !! (QNA_FILE_NAME +:+ "_" +:+ source_lang +:+ QNA_FILE_EXT)
       ≫= (λ reader, reader !! 1) ≠ Some text →
     first_translator text source target
     = second_translator text source target) →
  translate_qna ops isdigit languages_input first_translator QNA_FILE_NAME
    source_lang target_lang fs
  = translate_qna ops isdigit languages_input second_translator QNA_FILE_NAME
      source_lang target_lang fs.
Proof.
  intros Hagree. unfold translate_qna.
  case_decide; [done|]. case_decide; [done|].
  destruct (fs !! _) as [[|header [|no_translation_string reader]]|];
    [done..| |done].
  rewrite (translate_qna_lines_agree ops isdigit first_translator
             second_translator); [done|].
  intros text Htext. apply Hagree. simpl. congruence.
Qed.


Lemma translate_synonyms_echo_witness :
  let translate_text (text source target : string) : string + translation :=
    inr (TextResult text) in
  let reader :=
    ["// sizes" +:+ LF; LF; join SEPARATOR ["big"; "large"] +:+ LF] in
  let fs : gmap string (list string) := {[ "synonyms_EN-GB.tsv" := reader ]} in
  ∃ out,
    translate_synonyms ascii_ops ["EN-GB"; "ES"] translate_text "synonyms"
      "EN-GB" "ES" fs
    = (inr (), <["synonyms_ES.tsv" := reader]> fs, out).
Proof.
  intros translate_text reader fs.
  apply (translate_synonyms_echo ascii_ops ["EN-GB"; "ES"] translate_text
           "synonyms" "EN-GB" "ES" fs reader).
  - reflexivity.
  - discriminate.
  - vm_compute. apply list_elem_of_further, list_elem_of_here.
  - apply list_elem_of_here.
  - vm_compute. reflexivity.
  - repeat (apply Forall_cons; split); [| |right; vm_compute; lia|constructor];
      left; vm_compute; reflexivity.
Defined.

Lemma translate_synonyms_partial_target_witness :
  let translate_text (text source target : string) : string + translation :=
    inr (TextResult (target +:+ ":" +:+ text)) in
  let fs : gmap string (list string) :=
    {[ "synonyms_EN-GB.tsv" :=
         [join SEPARATOR ["big"; "large"] +:+ LF; "alone" +:+ LF;
          join SEPARATOR ["small"; "little"] +:+ LF] ]} in
  ∃ reader written line,
    fs !! "synonyms_EN-GB.tsv" = Some reader ∧
    (translate_synonyms ascii_ops ["EN-GB"; "ES"] translate_text "synonyms"
       "EN-GB" "ES" fs).1.2 = <["synonyms_ES.tsv" := written]> fs ∧
    reader !! length written = Some line ∧
    is_empty_line ascii_ops line || startswith line COMMENT_PREFIX = false ∧
    (length (split SEPARATOR line) < 2
     ∧ InvalidColumns ["alone" +:+ LF]
       = InvalidColumns (split SEPARATOR line)
     ∨ 2 ≤ length (split SEPARATOR line)
       ∧ translate_fields translate_text (get_general_lang "EN-GB") "ES"
           (split SEPARATOR line)
         = inl (InvalidColumns ["alone" +:+ LF])).
Proof.
  intros translate_text fs.
  apply (translate_synonyms_partial_target ascii_ops ["EN-GB"; "ES"]
           translate_text "synonyms" "EN-GB" "ES" fs
           (translate_synonyms ascii_ops ["EN-GB"; "ES"] translate_text
              "synonyms" "EN-GB" "ES" fs).1.2
           (InvalidColumns ["alone" +:+ LF])
           (translate_synonyms ascii_ops ["EN-GB"; "ES"] translate_text
              "synonyms" "EN-GB" "ES" fs).2).
  vm_compute. reflexivity.
Defined.

Lemma translate_bot_messages_base_lang_first_witness :
  let translate_text (text source target : string) : string + translation :=
    inr (TextResult (target +:+ ":" +:+ text)) in
  let first := "{}" +:+ LF in
  let second := "{{}}" +:+ LF in
  let header := join SEPARATOR ["key"; "ES"; "EN-GB"] +:+ LF in
  let fs : gmap string (list string) :=
    {[ "bot_messages.tsv" :=
         [first; second; header;
          join SEPARATOR ["hello"; "Hola"; "Hello"] +:+ LF] ]} in
  translate_bot_messages ascii_ops ["ES"; "EN-GB"] translate_text
    "bot_messages" "EN-GB" fs
  = (inl (UnexpectedError LanguagesDoNotMatch),
     <["bot_messages.tsv" := [first; second; header]]> fs, []).
Proof.
  intros translate_text first second header fs.
  apply (translate_bot_messages_base_lang_first ascii_ops ["ES"; "EN-GB"]
           translate_text "bot_messages" "EN-GB" fs first second header
           [join SEPARATOR ["hello"; "Hola"; "Hello"] +:+ LF]).
  - discriminate.
  - vm_compute. reflexivity.
Defined.

Lemma translate_bot_messages_written_witness :
  let translate_text (text source target : string) : string + translation :=
    inr (TextResult (target +:+ ":" +:+ text)) in
  let lines :=
    ["{}" +:+ LF; "{{}}" +:+ LF;
     join SEPARATOR ["key"; "EN-GB"; "ES"] +:+ LF;
     LF;
     join SEPARATOR ["hello"; "Hello"; "Hola"] +:+ LF;
     join SEPARATOR ["bye"; "Bye"] +:+ LF] in
  let fs : gmap string (list string) := {[ "bot_messages.tsv" := lines ]} in
  ∃ written,
    (translate_bot_messages ascii_ops ["EN-GB"; "ES"] translate_text
       "bot_messages" "EN-GB" fs).1.2
    = <["bot_messages.tsv" := take 3 lines ++ written]> fs ∧
    3 ≤ length lines ∧
    Forall2 (λ raw text,
               let line := str_strip ascii_ops raw in
               let fields := split SEPARATOR line in
               if decide (length fields = length ["EN-GB"; "ES"] + 1)
               then text = line +:+ LF
               else ∃ message translated_fields,
                      fields !! 1 = Some message ∧
                      length translated_fields = length ["EN-GB"; "ES"] - 1 ∧
                      text = join SEPARATOR (message :: translated_fields)
                             +:+ LF)
            (filter (λ raw, str_strip ascii_ops raw ≠ EmptyString)
               (drop 3 lines))
            written.
Proof.
  intros translate_text lines fs.
  apply (translate_bot_messages_written ascii_ops ["EN-GB"; "ES"]
           translate_text "bot_messages" "EN-GB" fs
           (translate_bot_messages ascii_ops ["EN-GB"; "ES"] translate_text
              "bot_messages" "EN-GB" fs).1.2
           (translate_bot_messages ascii_ops ["EN-GB"; "ES"] translate_text
              "bot_messages" "EN-GB" fs).2
           lines).
  - vm_compute. reflexivity.
  - vm_compute. reflexivity.
Defined.

Lemma translate_qna_no_translation_string_witness :
  let first_translator (text source target : string) : string + translation :=
    inr (TextResult (target +:+ ":" +:+ text)) in
  let second_translator (text source target : string)
    : string + translation :=
    if decide (text = "#" +:+ LF) then inl "refused"
    else inr (TextResult (target +:+ ":" +:+ text)) in
  let fs : gmap string (list string) :=
    {[ "qna_EN-GB.tsv" :=
         [join SEPARATOR ["id"; "question"; "answer"] +:+ LF;
          "#" +:+ LF;
          join SEPARATOR ["greet"; "Hello"; "#"] +:+ LF] ]} in
  translate_qna ascii_ops ascii_isdigit ["EN-GB"; "ES"] first_translator
    "qna" "EN-GB" "ES" fs
  = translate_qna ascii_ops ascii_isdigit ["EN-GB"; "ES"] second_translator
      "qna" "EN-GB" "ES" fs.
Proof.
  intros first_translator second_translator fs.
  apply (translate_qna_no_translation_string ascii_ops ascii_isdigit
           ["EN-GB"; "ES"] first_translator second_translator
           "qna" "EN-GB" "ES" fs).
  intros text source target Htext. unfold second_translator.
  destruct (decide (text = "#" +:+ LF)) as [->|]; [|reflexivity].
  exfalso. apply Htext. vm_compute. reflexivity.
Defined.

Lemma translate_qna_accepts (ops : StrOps) (isdigit : string → bool)
    (languages_input : list string)
    (translate_text : string → string → string → string + translation)
    (QNA_FILE_NAME source_lang target_lang : string)
    (fs : gmap string (list string)) :
  source_lang ∈ languages_input → target_lang ∈ languages_input →
  target_lang ≠ source_lang →
  ∀ e, (translate_qna ops isdigit languages_input translate_text
          QNA_FILE_NAME source_lang target_lang fs).1.1 = inl e →
       ∃ cause, e = UnexpectedError cause.
Proof.
  intros Hsource Htarget Hne e. unfold translate_qna.
  rewrite decide_False by done.
  rewrite decide_False by (by intros [[]|[]]).
  destruct (fs !! _) as [[|header [|no_translation_string reader]]|]; simpl;
    [intros [= <-]; eauto..| |done].
  destruct (translate_qna_lines _ _ _ _ _ _ _ _)
    as [[[cause|[]] written] out]; simpl; [|done].
  intros [= <-]. eauto.
Qed.

Lemma translate_synonyms_accepts (ops : StrOps)
    (languages_input : list string)
    (translate_text : string → string → string → string + translation)
    (SYNONYMS_FILE_NAME source_lang target_lang : string)
    (fs : gmap string (list string)) :
  source_lang ∈ languages_input → target_lang ∈ languages_input →
  target_lang ≠ source_lang →
  ∀ e, (translate_synonyms ops languages_input translate_text
          SYNONYMS_FILE_NAME source_lang target_lang fs).1.1 = inl e →
       ∃ cause, e = UnexpectedError cause.
Proof.
  intros Hsource Htarget Hne e. unfold translate_synonyms.
  rewrite decide_False by done.
  rewrite decide_False by (by intros []).
  rewrite decide_False by (by intros []).
  destruct (fs !! _) as [reader|]; simpl; [|done].
  destruct (translate_synonyms_lines _ _ _ _ _ _)
    as [[[cause|[]] written] out]; simpl; [|done].
  intros [= <-]. eauto.
Qed.

Lemma translate_bot_messages_raises (ops : StrOps)
    (languages_input : list string)
    (translate_text : string → string → string → string + translation)
    (ADDITIONAL_TEXT_FILE_NAME BASE_LANG : string)
    (fs : gmap string (list string)) :
  ∀ e, (translate_bot_messages ops languages_input translate_text
          ADDITIONAL_TEXT_FILE_NAME BASE_LANG fs).1.1 = inl e →
       ∃ cause, e = UnexpectedError cause.
Proof.
  intros e. unfold translate_bot_messages.
  destruct (fs !! _) as [[|first [|second [|header reader]]]|]; simpl;
    [intros [= <-]; eauto..| |done].
  case_decide; simpl; [intros [= <-]; eauto|].
  destruct (translate_bot_lines _ _ _ _ _ _) as [[cause|[]] written];
    simpl; [|done].
  intros [= <-]. eauto.
Qed.

Lemma translate_each_spec
    (translate : string → string → gmap string (list string) →
                 (translate_error + unit) * gmap string (list string)
                 * list printed)
    (BASE_LANG : string) (languages : list string)
    (kept : gmap string (list string) → gmap string (list string) → Prop) :
  (∀ fs, kept fs fs) →
  (∀ fs fs' fs'', kept fs fs' → kept fs' fs'' → kept fs fs'') →
  (∀ lang fs, lang ∈ languages → lang ≠ BASE_LANG →
     kept fs (translate BASE_LANG lang fs).1.2 ∧
     ∀ e, (translate BASE_LANG lang fs).1.1 = inl e →
          ∃ cause, e = UnexpectedError cause) →
  ∀ fs,
    kept fs (translate_each translate BASE_LANG languages fs).1.2 ∧
    ∀ e, (translate_each translate BASE_LANG languages fs).1.1 = inl e →
         ∃ cause, e = UnexpectedError cause.
Proof.
  intros Hrefl Htrans.
  induction languages as [|lang languages IH]; intros Hcall fs; simpl.
  - split; [apply Hrefl|done].
  - assert (∀ fs,
              kept fs (translate_each translate BASE_LANG languages fs).1.2 ∧
              ∀ e, (translate_each translate BASE_LANG languages fs).1.1
                   = inl e → ∃ cause, e = UnexpectedError cause) as Hrest.
    { apply IH. intros ? ? ?. apply Hcall. by right. }
    case_decide as Hlang; [|apply Hrest].
    destruct (Hcall lang fs) as [Hkept Hraises]; [by left|done|].
    destruct (translate BASE_LANG lang fs) as [[[e|[]] fs'] out]; simpl in *.
    + split; [done|]. intros ? [= <-]. by apply Hraises.
    + destruct (Hrest fs') as [Hkept' Hraises'].
      destruct (translate_each translate BASE_LANG languages fs')
        as [[outcome fs''] rest_out]; simpl in *.
      split; [by eapply Htrans|done].
Qed.

(** X30. Run from the end of the script with a base language of the
    languages file, the functions never meet the tests of their first
    lines: the script ends without an error or with an unexpected error,
    never because the two languages are the same or a language is not
    listed.  The loop over the languages for the questions leaves the
    file of the base language as it was, so that every language is
    translated from the same text. *)
Theorem translate_selected_guards (ops : StrOps) (isdigit : string → bool)
    (languages_input : list string)
    (translate_text : string → string → string → string + translation)
    (SYNONYMS_FILE_NAME QNA_FILE_NAME ADDITIONAL_TEXT_FILE_NAME : string)
    (BASE_LANG : string)
    (TRANSLATE_QNA TRANSLATE_SYNONYMS TRANSLATE_BOT_MESSAGES : bool)
    (fs : gmap string (list string)) :
  BASE_LANG ∈ languages_input →
  (∀ e,
     (translate_selected ops isdigit languages_input translate_text
        SYNONYMS_FILE_NAME QNA_FILE_NAME ADDITIONAL_TEXT_FILE_NAME BASE_LANG
        TRANSLATE_QNA TRANSLATE_SYNONYMS TRANSLATE_BOT_MESSAGES fs).1.1
     = inl e →
     ∃ cause, e = UnexpectedError cause) ∧
  (translate_each
     (translate_qna ops isdigit languages_input translate_text QNA_FILE_NAME)
     BASE_LANG languages_input fs).1.2
    !! (QNA_FILE_NAME +:+ "_" +:+ BASE_LANG +:+ QNA_FILE_EXT)
  = fs !! (QNA_FILE_NAME +:+ "_" +:+ BASE_LANG +:+ QNA_FILE_EXT).
Proof.
  intros Hbase.
  assert (∀ fs,
            (translate_each
               (translate_qna ops isdigit languages_input translate_text
                  QNA_FILE_NAME) BASE_LANG languages_input fs).1.2
              !! (QNA_FILE_NAME +:+ "_" +:+ BASE_LANG +:+ QNA_FILE_EXT)
            = fs !! (QNA_FILE_NAME +:+ "_" +:+ BASE_LANG +:+ QNA_FILE_EXT)
            ∧ ∀ e, (translate_each
                      (translate_qna ops isdigit languages_input
                         translate_text QNA_FILE_NAME)
                      BASE_LANG languages_input fs).1.1 = inl e →
                   ∃ cause, e = UnexpectedError cause) as Hqna.
  { apply (translate_each_spec _ _ _
             (λ fs fs' : gmap string (list string),
                fs' !! (QNA_FILE_NAME +:+ "_" +:+ BASE_LANG +:+ QNA_FILE_EXT)
                = fs !! (QNA_FILE_NAME +:+ "_" +:+ BASE_LANG
                         +:+ QNA_FILE_EXT))).
    - done.
    - intros ? ? ? H1 H2. by rewrite H2, H1.
    - intros lang fs0 Hlang Hne. split.
      + apply translate_qna_frame. intros ?%language_file_inj. by subst.
      + by apply translate_qna_accepts. }
  assert (∀ fs e,
            (translate_each
               (translate_synonyms ops languages_input translate_text
                  SYNONYMS_FILE_NAME) BASE_LANG languages_input fs).1.1
            = inl e → ∃ cause, e = UnexpectedError cause) as Hsynonyms.
  { intros fs0.
    apply (translate_each_spec _ _ _ (λ _ _, True)); [done..|].
    intros lang fs1 Hlang Hne. split; [done|].
    by apply translate_synonyms_accepts. }
  split; [|apply Hqna].
  intros e. unfold translate_selected.
  destruct TRANSLATE_QNA.
  - pose proof (Hqna fs) as [_ Hraises].
    destruct (translate_each _ _ _ fs) as [[[e1|[]] fs1] out1]; simpl in *.
    { intros [= <-]. by apply Hraises. }
    destruct TRANSLATE_SYNONYMS.
    + pose proof (Hsynonyms fs1) as Hraises2.
      destruct (translate_each _ _ _ fs1) as [[[e2|[]] fs2] out2];
        simpl in *.
      { intros [= <-]. by apply Hraises2. }
      destruct TRANSLATE_BOT_MESSAGES; [|done].
      pose proof (translate_bot_messages_raises ops languages_input
                    translate_text ADDITIONAL_TEXT_FILE_NAME BASE_LANG fs2)
        as Hraises3.
      destruct (translate_bot_messages _ _ _ _ _ fs2) as [[outcome fs3] out3].
      apply Hraises3.
    + destruct TRANSLATE_BOT_MESSAGES; [|done].
      pose proof (translate_bot_messages_raises ops languages_input
                    translate_text ADDITIONAL_TEXT_FILE_NAME BASE_LANG fs1)
        as Hraises3.
      destruct (translate_bot_messages _ _ _ _ _ fs1) as [[outcome fs3] out3].
      apply Hraises3.
  - simpl. destruct TRANSLATE_SYNONYMS.
    + pose proof (Hsynonyms fs) as Hraises2.
      destruct (translate_each _ _ _ fs) as [[[e2|[]] fs2] out2];
        simpl in *.
      { intros [= <-]. by apply Hraises2. }
      destruct TRANSLATE_BOT_MESSAGES; [|done].
      pose proof (translate_bot_messages_raises ops languages_input
                    translate_text ADDITIONAL_TEXT_FILE_NAME BASE_LANG fs2)
        as Hraises3.
      destruct (translate_bot_messages _ _ _ _ _ fs2) as [[outcome fs3] out3].
      apply Hraises3.
    + destruct TRANSLATE_BOT_MESSAGES; [|done].
      pose proof (translate_bot_messages_raises ops languages_input
                    translate_text ADDITIONAL_TEXT_FILE_NAME BASE_LANG fs)
        as Hraises3.
      destruct (translate_bot_messages _ _ _ _ _ fs) as [[outcome fs3] out3].
      apply Hraises3.
Qed.

Lemma translate_selected_guards_witness :
  let translate_text (text source target : string) : string + translation :=
    inr (TextResult (target +:+ ":" +:+ text)) in
  let fs : gmap string (list string) :=
    {[ "qna_EN-GB.tsv" :=
         [join SEPARATOR ["id"; "question"; "answer"] +:+ LF; "#" +:+ LF;
          join SEPARATOR ["greet"; "Hello"; "Hi"] +:+ LF] ]} in
  (∀ e,
     (translate_selected ascii_ops ascii_isdigit ["ES"; "EN-GB"; "FR"]
        translate_text "synonyms" "qna" "bot_messages" "EN-GB"
        true true true fs).1.1 = inl e →
     ∃ cause, e = UnexpectedError cause) ∧
  (translate_each
     (translate_qna ascii_ops ascii_isdigit ["ES"; "EN-GB"; "FR"]
        translate_text "qna")
     "EN-GB" ["ES"; "EN-GB"; "FR"] fs).1.2 !! "qna_EN-GB.tsv"
  = fs !! "qna_EN-GB.tsv".
Proof.
  intros translate_text fs.
  apply (translate_selected_guards ascii_ops ascii_isdigit
           ["ES"; "EN-GB"; "FR"] translate_text "synonyms" "qna"
           "bot_messages" "EN-GB" true true true fs).
  apply list_elem_of_further, list_elem_of_here.
Defined.
